(** * Certificate store, issuance and PDF upload: a shallow embedding

    The development follows the client-side store of the certificate
    verifier (a zustand store with templates, recipients, certificates and
    collections), its export/import through JSON, the issuance actions
    with their deferred remote persistence, and the bounded-retry upload
    of a rendered PDF to object storage. *)

From Stdlib Require Import ZArith Ascii String Decimal DecimalN DecimalPos DecimalFacts Lia.
From stdpp Require Import base option list gmap strings.

Local Open Scope Z_scope.
Local Open Scope stdpp_scope.

(** ** JavaScript idioms used throughout the store *)

(** [a || b] where [a] is an optional string: the empty string and
    [undefined] are both falsy. *)
Definition str_or (a : option string) (b : string) : string :=
  match a with
  | Some s => if decide (s = "") then b else s
  | None => b
  end.

(** [a || null] where [a] is an optional string. *)
Definition str_or_null (a : option string) : option string :=
  match a with
  | Some s => if decide (s = "") then None else Some s
  | None => None
  end.

(** A JavaScript number, as far as the store can tell numbers apart: an
    integer (exact for the safe-integer range of a double), or one of the
    three values that are not finite.  Fractions and the negative zero
    are outside this embedding. *)
Inductive number :=
  | Int (z : Z)
  | NaN
  | Infinity (negative : bool).

Coercion Int : Z >-> number.

Definition finite (n : number) : Prop :=
  match n with
  | Int _ => True
  | NaN | Infinity _ => False
  end.

(** [Array.prototype.find] is [List.find]; [Array.prototype.some] and
    [Array.prototype.includes] on strings: *)
Definition some {A} (p : A -> bool) (l : list A) : bool := existsb p l.
Definition includes (l : list string) (s : string) : bool :=
  some (fun x => bool_decide (x = s)) l.

(** [Array.prototype.slice(i, j)] for in-range, non-negative bounds. *)
Definition slice {A} (i j : nat) (l : list A) : list A :=
  take (j - i) (drop i l).

(** ** Data model *)

(** Modelled from the spec: the type declarations imported from
    ['../types'] are not part of the sources.  The records list the
    fields the store, the default data and the PDF utilities read and
    write; optional members are [option]s, where [None] is an absent key
    (a key that is present with the value [undefined] is not told apart
    from an absent one). *)

Module Field.
Record t := mk {
  id : string;
  name : string;
  type : string;            (* 'text', 'date' or 'qrcode' *)
  x : number;
  y : number;
  fontSize : option number;
  fontFamily : option string;
  color : option string;
  defaultValue : option string
}.
End Field.

Module Template.
Record t := mk {
  id : string;
  name : string;
  imageUrl : string;
  fields : list Field.t
}.
(** [Omit<Template, 'id'>] *)
Record payload := mkPayload {
  p_name : string;
  p_imageUrl : string;
  p_fields : list Field.t
}.
(** [{ ...template, id }] *)
Definition withId (p : payload) (i : string) : t :=
  mk i (p_name p) (p_imageUrl p) (p_fields p).
End Template.

Module Recipient.
Record t := mk {
  id : string;
  name : string;
  email : option string;
  course : option string;
  customFields : option (gmap string string);
  issueDate : string
}.
(** [Omit<Recipient, 'id'>] *)
Record payload := mkPayload {
  p_name : string;
  p_email : option string;
  p_course : option string;
  p_customFields : option (gmap string string);
  p_issueDate : string
}.
(** [{ ...recipient, id }] *)
Definition withId (p : payload) (i : string) : t :=
  mk i (p_name p) (p_email p) (p_course p) (p_customFields p) (p_issueDate p).
End Recipient.

Module Certificate.
Record t := mk {
  id : string;
  recipientId : string;
  templateId : string;
  qrCodeUrl : string;
  issueDate : string;
  verificationUrl : string;
  status : string
}.
(** [Partial<Certificate>]: every member may be absent. *)
Record partial := mkPartial {
  u_id : option string;
  u_recipientId : option string;
  u_templateId : option string;
  u_qrCodeUrl : option string;
  u_issueDate : option string;
  u_verificationUrl : option string;
  u_status : option string
}.
(** [{ ...c, ...updates }]: a member of [updates] wins when present. *)
Definition spread (c : t) (u : partial) : t :=
  mk (default (id c) (u_id u))
     (default (recipientId c) (u_recipientId u))
     (default (templateId c) (u_templateId u))
     (default (qrCodeUrl c) (u_qrCodeUrl u))
     (default (issueDate c) (u_issueDate u))
     (default (verificationUrl c) (u_verificationUrl u))
     (default (status c) (u_status u)).
End Certificate.

Module CertificateCollection.
Record t := mk {
  id : string;
  name : string;
  description : option string;
  templateId : string;
  certificates : list Certificate.t;
  createdAt : string
}.
(** [{ ...collection, certificates: cs }] *)
Definition withCertificates (c : t) (cs : list Certificate.t) : t :=
  mk (id c) (name c) (description c) (templateId c) cs (createdAt c).
End CertificateCollection.

(** ** The store state *)

Record Store := mkStore {
  templates : list Template.t;
  recipients : list Recipient.t;
  certificates : list Certificate.t;
  collections : list CertificateCollection.t;
  currentTemplateId : option string
}.

(** State after [clearAllData]. *)
Definition clearAllData (_ : Store) : Store := mkStore [] [] [] [] None.

(** ** Actions that only call [set] *)

Definition updateTemplate (id : string) (template : Template.payload)
    (state : Store) : Store :=
  mkStore
    (map (fun t => if bool_decide (Template.id t = id)
                   then Template.withId template id else t)
         (templates state))
    (recipients state) (certificates state) (collections state)
    (currentTemplateId state).

Definition deleteTemplate (id : string) (state : Store) : Store :=
  mkStore
    (filter (fun t => Template.id t ≠ id) (templates state))
    (recipients state) (certificates state) (collections state)
    (if bool_decide (currentTemplateId state = Some id)
     then str_or_null
            (Template.id <$>
               List.find (fun t => negb (bool_decide (Template.id t = id)))
                    (templates state))
     else currentTemplateId state).

Definition setCurrentTemplate (id : string) (state : Store) : Store :=
  mkStore (templates state) (recipients state) (certificates state)
          (collections state) (Some id).

Definition updateRecipient (id : string) (recipient : Recipient.payload)
    (state : Store) : Store :=
  mkStore
    (templates state)
    (map (fun r => if bool_decide (Recipient.id r = id)
                   then Recipient.withId recipient id else r)
         (recipients state))
    (certificates state) (collections state) (currentTemplateId state).

Definition deleteRecipient (id : string) (state : Store) : Store :=
  mkStore
    (templates state)
    (filter (fun r => Recipient.id r ≠ id) (recipients state))
    (filter (fun c => Certificate.recipientId c ≠ id) (certificates state))
    (collections state) (currentTemplateId state).

Definition updateCertificate (id : string) (updates : Certificate.partial)
    (state : Store) : Store :=
  mkStore
    (templates state) (recipients state)
    (map (fun c => if bool_decide (Certificate.id c = id)
                   then Certificate.spread c updates else c)
         (certificates state))
    (collections state) (currentTemplateId state).

Definition deleteCertificate (id : string) (state : Store) : Store :=
  mkStore
    (templates state) (recipients state)
    (filter (fun c => Certificate.id c ≠ id) (certificates state))
    (collections state) (currentTemplateId state).

Definition deleteCollection (id : string) (state : Store) : Store :=
  mkStore
    (templates state) (recipients state) (certificates state)
    (filter (fun c => CertificateCollection.id c ≠ id) (collections state))
    (currentTemplateId state).

Definition addCertificatesToCollection (collectionId : string)
    (certificateIds : list string) (state : Store) : Store :=
  let allCertificates := certificates state in
  let certificatesToAdd :=
    List.filter (fun cert => includes certificateIds (Certificate.id cert))
                allCertificates in
  mkStore
    (templates state) (recipients state) (certificates state)
    (map (fun collection =>
            if bool_decide (CertificateCollection.id collection = collectionId)
            then CertificateCollection.withCertificates collection
                   (CertificateCollection.certificates collection ++
                    List.filter
                      (fun cert =>
                         negb (some (fun existing =>
                                       bool_decide (Certificate.id existing
                                                    = Certificate.id cert))
                                    (CertificateCollection.certificates collection)))
                      certificatesToAdd)
            else collection)
         (collections state))
    (currentTemplateId state).

Definition removeCertificatesFromCollection (collectionId : string)
    (certificateIds : list string) (state : Store) : Store :=
  mkStore
    (templates state) (recipients state) (certificates state)
    (map (fun collection =>
            if bool_decide (CertificateCollection.id collection = collectionId)
            then CertificateCollection.withCertificates collection
                   (List.filter
                      (fun cert => negb (includes certificateIds (Certificate.id cert)))
                      (CertificateCollection.certificates collection))
            else collection)
         (collections state))
    (currentTemplateId state).

(** ** Environment, world and the action monad *)

(** What the actions read from outside the store. *)
Record Env := mkEnv {
  window_origin : option string;  (* [window.location.origin]; [None] when [window] is undefined *)
  nanoid : nat -> string;         (* the identifier returned by the n-th call of [nanoid()] *)
  toISOString : nat -> string     (* [new Date().toISOString()] at the n-th reading of the clock *)
}.

(** Row sent to the hosted database.  Modelled from the spec: the
    interface [DatabaseCertificate] is declared in ['../lib/supabase'],
    which is not part of the sources; its members are those of the object
    literal the store builds. *)
Record DatabaseCertificate := mkDb {
  certificate_code : string;
  recipient_name : string;
  recipient_email : string;
  recipient_id : option string;
  course_name : string;
  template_id : string;
  issue_date : string;
  qr_code_data : string;
  db_status : string
}.

(** Observable effects outside the store, in program order. *)
Inductive Event :=
  | InsertCertificate (db : DatabaseCertificate)  (* supabase.insertCertificate *)
  | GenerateAndUpload (code : string)             (* generateAndUploadCertificatePDF *)
  | UpdatePDFUrl (code url : string)              (* supabase.updateCertificatePDFUrl *)
  | LogAttempt (db : DatabaseCertificate)
  | LogGenerating (code : string)
  | LogSaved (code : string)
  | LogPdfUploaded (code url : string)
  | LogPdfUrlUpdated (code : string)
  | ErrorPdf (code : string)
  | ErrorSaving (code : string)
  | ErrorMissing (code : string)
  | LogSavingBulk (n : nat)
  | LogBulkSaved (saved total : nat)
  | LogAllProcessed (saved : nat)
  | Alert (saved failed : nat)
  | AlertNotSaved.

(** A promise chain started by an action and left running.  The part of
    a chain that runs before its first [await] is kept with the rest of
    the chain: no part of a chain writes to the store. *)
Inductive Task :=
  | PersistOne (id : string) (db : DatabaseCertificate)
               (template : Template.t) (recipient : Recipient.t)
  | PersistBulk (newCertificates : list Certificate.t)
                (recipients : list Recipient.t)
                (template : option Template.t) (templateId : string).

Record World := mkWorld {
  store : Store;
  ids : nat;             (* calls of [nanoid] so far *)
  ticks : nat;           (* readings of the clock so far *)
  trace : list Event;    (* effects so far, oldest first *)
  pending : list Task    (* promise chains not yet settled *)
}.

(** State passing: a computation over a state [S] returning an [A]. *)
Definition M (S A : Type) : Type := S -> A * S.

Definition ret {S A} (a : A) : M S A := fun w => (a, w).
Definition bind {S A B} (m : M S A) (k : A -> M S B) : M S B :=
  fun w => let (a, w') := m w in k a w'.

(** Store actions run over the world. *)
Definition Action : Type -> Type := M World.

Notation "x <~ m ;; k" := (bind m (fun x => k))
  (at level 100, m at next level, right associativity).
Notation "m ;;; k" := (bind m (fun _ => k))
  (at level 100, right associativity).

Definition get : Action Store := fun w => (store w, w).
Definition set (f : Store -> Store) : Action unit :=
  fun w => (tt, mkWorld (f (store w)) (ids w) (ticks w) (trace w) (pending w)).
Definition emit (e : Event) : Action unit :=
  fun w => (tt, mkWorld (store w) (ids w) (ticks w) (trace w ++ [e]) (pending w)).
Definition spawn (t : Task) : Action unit :=
  fun w => (tt, mkWorld (store w) (ids w) (ticks w) (trace w) (pending w ++ [t])).
Definition fresh (env : Env) : Action string :=
  fun w => (nanoid env (ids w),
            mkWorld (store w) (S (ids w)) (ticks w) (trace w) (pending w)).
Definition now (env : Env) : Action string :=
  fun w => (toISOString env (ticks w),
            mkWorld (store w) (ids w) (S (ticks w)) (trace w) (pending w)).

(** [mapM] over an array, left to right ([Array.prototype.map] with an
    effectful callback). *)
Fixpoint mapA {A B} (f : A -> Action B) (l : list A) : Action (list B) :=
  match l with
  | [] => ret []
  | x :: l' => y <~ f x ;; ys <~ mapA f l' ;; ret (y :: ys)
  end.

(** [s.split('T')[0]]: the part of [s] before its first ['T']. *)
Fixpoint before_T (s : string) : string :=
  match s with
  | EmptyString => EmptyString
  | String c s' => if decide (c = "T"%char) then EmptyString
                   else String c (before_T s')
  end.

(** [typeof window !== 'undefined' ? window.location.origin : ''] *)
Definition baseUrl (env : Env) : string := default "" (window_origin env).

(** ** Actions that allocate identifiers *)

Definition addTemplate (env : Env) (template : Template.payload) : Action string :=
  id <~ fresh env ;;
  let newTemplate := Template.withId template id in
  set (fun state => mkStore (templates state ++ [newTemplate]) (recipients state)
                      (certificates state) (collections state)
                      (currentTemplateId state)) ;;;
  ret id.

Definition addRecipient (env : Env) (recipient : Recipient.payload) : Action string :=
  id <~ fresh env ;;
  let newRecipient := Recipient.withId recipient id in
  set (fun state => mkStore (templates state) (recipients state ++ [newRecipient])
                      (certificates state) (collections state)
                      (currentTemplateId state)) ;;;
  ret id.

Definition addRecipients (env : Env) (rs : list Recipient.payload)
    : Action (list string) :=
  newRecipients <~ mapA (fun recipient =>
                           id <~ fresh env ;; ret (Recipient.withId recipient id)) rs ;;
  set (fun state => mkStore (templates state) (recipients state ++ newRecipients)
                      (certificates state) (collections state)
                      (currentTemplateId state)) ;;;
  ret (map Recipient.id newRecipients).

Definition createCollection (env : Env) (name : string)
    (description templateId : option string) : Action string :=
  id <~ fresh env ;;
  createdAt <~ now env ;;
  let collection :=
    CertificateCollection.mk id name description (str_or templateId "") [] createdAt in
  set (fun state => mkStore (templates state) (recipients state)
                      (certificates state) (collections state ++ [collection])
                      (currentTemplateId state)) ;;;
  ret id.

(** The database row built for a certificate. *)
Definition dbCertificate (code : string) (recipient : Recipient.t)
    (template : Template.t) (templateId today verificationUrl : string)
    : DatabaseCertificate :=
  mkDb code
       (Recipient.name recipient)
       (str_or (Recipient.email recipient) "")
       (str_or_null (Recipient.customFields recipient ≫= fun m => m !! "studentId"))
       (str_or (Recipient.course recipient) (Template.name template))
       templateId
       today
       verificationUrl
       "active".

Definition generateCertificate (env : Env) (recipientId templateId : string)
    : Action string :=
  id <~ fresh env ;;
  let verificationUrl := baseUrl env +:+ "/verify/" +:+ id in
  issued <~ now env ;;
  let certificate :=
    Certificate.mk id recipientId templateId verificationUrl issued
                   verificationUrl "published" in
  set (fun state => mkStore (templates state) (recipients state)
                      (certificates state ++ [certificate]) (collections state)
                      (currentTemplateId state)) ;;;
  state <~ get ;;
  let recipient :=
    List.find (fun r => bool_decide (Recipient.id r = recipientId)) (recipients state) in
  let template :=
    List.find (fun t => bool_decide (Template.id t = templateId)) (templates state) in
  match recipient, template with
  | Some recipient, Some template =>
      today <~ now env ;;
      let db := dbCertificate id recipient template templateId
                              (before_T today) verificationUrl in
      emit (LogAttempt db) ;;;
      spawn (PersistOne id db template recipient) ;;;
      ret id
  | _, _ =>
      emit (ErrorMissing id) ;;;
      ret id
  end.

Definition generateBulkCertificates (env : Env) (recipientIds : list string)
    (templateId : string) : Action (list string) :=
  state <~ get ;;
  let template :=
    List.find (fun t => bool_decide (Template.id t = templateId)) (templates state) in
  newCertificates <~
    mapA (fun recipientId =>
            id <~ fresh env ;;
            let verificationUrl := baseUrl env +:+ "/verify/" +:+ id in
            issued <~ now env ;;
            ret (Certificate.mk id recipientId templateId verificationUrl issued
                                verificationUrl "published"))
         recipientIds ;;
  set (fun state => mkStore (templates state) (recipients state)
                      (certificates state ++ newCertificates) (collections state)
                      (currentTemplateId state)) ;;;
  emit (LogSavingBulk (length newCertificates)) ;;;
  spawn (PersistBulk newCertificates (recipients state) template templateId) ;;;
  ret (map Certificate.id newCertificates).

(** ** Settling the promise chains *)

(** How the remote side answers: whether an insert or an update of the
    database client resolves, and the URL that rendering and uploading a
    PDF resolves to ([None] when it rejects; the rendering itself happens
    in the DOM, outside this embedding).  An answer may depend on
    everything that happened before the request (the trace), so that two
    identical requests can be answered differently. *)
Record Remote := mkRemote {
  insertCertificate : list Event -> DatabaseCertificate -> bool;
  generateAndUploadCertificatePDF : list Event -> string -> option string;
  updateCertificatePDFUrl : list Event -> string -> string -> bool
}.

(** A request: its answer is read off the history, then it is recorded. *)
Definition request {A} (e : Event) (answer : list Event -> A) : Action A :=
  fun w => (answer (trace w), snd (emit e w)).

(** The [.then(...)/.catch(...)] chain of [generateCertificate]. *)
Definition settleOne (remote : Remote) (id : string) (db : DatabaseCertificate)
    : Action unit :=
  saved <~ request (InsertCertificate db) (fun h => insertCertificate remote h db) ;;
  if saved : bool then
    emit (LogSaved id) ;;;
    emit (LogGenerating id) ;;;
    pdf <~ request (GenerateAndUpload id)
                   (fun h => generateAndUploadCertificatePDF remote h id) ;;
    match pdf with
    | Some pdfUrl =>
        emit (LogPdfUploaded id pdfUrl) ;;;
        updated <~ request (UpdatePDFUrl id pdfUrl)
                           (fun h => updateCertificatePDFUrl remote h id pdfUrl) ;;
        if updated : bool then emit (LogPdfUrlUpdated id) else emit (ErrorPdf id)
    | None => emit (ErrorPdf id)
    end
  else
    emit (ErrorSaving id) ;;;
    emit AlertNotSaved.

(** The two counters closed over by the bulk pipeline. *)
Record Counts := mkCounts { savedCount : nat; errorCount : nat }.

Definition processCertificate (env : Env) (remote : Remote)
    (recipients : list Recipient.t) (template : option Template.t)
    (templateId : string) (total : nat)
    (counts : Counts) (cert : Certificate.t) : Action Counts :=
  let recipient :=
    List.find (fun r => bool_decide (Recipient.id r = Certificate.recipientId cert))
              recipients in
  match recipient, template with
  | Some recipient, Some template =>
      today <~ now env ;;
      let db := dbCertificate (Certificate.id cert) recipient template templateId
                              (before_T today) (Certificate.verificationUrl cert) in
      emit (LogAttempt db) ;;;
      saved <~ request (InsertCertificate db) (fun h => insertCertificate remote h db) ;;
      if saved : bool then
        let counts := mkCounts (S (savedCount counts)) (errorCount counts) in
        emit (LogBulkSaved (savedCount counts) total) ;;;
        emit (LogGenerating (Certificate.id cert)) ;;;
        pdf <~ request (GenerateAndUpload (Certificate.id cert))
                 (fun h => generateAndUploadCertificatePDF remote h (Certificate.id cert)) ;;
        match pdf with
        | Some pdfUrl =>
            updated <~ request (UpdatePDFUrl (Certificate.id cert) pdfUrl)
                         (fun h => updateCertificatePDFUrl remote h
                                     (Certificate.id cert) pdfUrl) ;;
            (if updated : bool
             then emit (LogPdfUploaded (Certificate.id cert) pdfUrl)
             else emit (ErrorPdf (Certificate.id cert))) ;;;
            ret counts
        | None => emit (ErrorPdf (Certificate.id cert)) ;;; ret counts
        end
      else
        emit (ErrorSaving (Certificate.id cert)) ;;;
        ret (mkCounts (savedCount counts) (S (errorCount counts)))
  | _, _ =>
      emit (ErrorMissing (Certificate.id cert)) ;;;
      ret counts
  end.

Definition batchSize : nat := 3.

(** [await Promise.all(batch.map(cert => processCertificate(cert)))]: the
    pipelines of one batch are linearised in array order; how the event
    loop interleaves them inside the batch is not modelled. *)
Fixpoint processBatch (process : Counts -> Certificate.t -> Action Counts)
    (counts : Counts) (batch : list Certificate.t) : Action Counts :=
  match batch with
  | [] => ret counts
  | cert :: batch' =>
      counts' <~ process counts cert ;; processBatch process counts' batch'
  end.

(** [for (let i = 0; i < newCertificates.length; i += batchSize)] with the
    awaited body; [None] when the fuel runs out before the loop exits. *)
Fixpoint batchLoop (fuel : nat)
    (process : Counts -> Certificate.t -> Action Counts)
    (newCertificates : list Certificate.t) (i : nat) (counts : Counts)
    : Action (option Counts) :=
  if bool_decide (i < length newCertificates)%nat then
    match fuel with
    | O => ret None
    | S fuel' =>
        let batch := slice i (i + batchSize) newCertificates in
        counts' <~ processBatch process counts batch ;;
        batchLoop fuel' process newCertificates (i + batchSize)%nat counts'
    end
  else ret (Some counts).

(** The summary after the last batch: one alert when something failed. *)
Definition reportBulk (counts : Counts) : Action unit :=
  if bool_decide (0 < errorCount counts)%nat
  then emit (Alert (savedCount counts) (errorCount counts))
  else emit (LogAllProcessed (savedCount counts)).

(** The [(async () => { ... })()] of [generateBulkCertificates]. *)
Definition settleBulk (env : Env) (remote : Remote)
    (newCertificates : list Certificate.t) (recipients : list Recipient.t)
    (template : option Template.t) (templateId : string) : Action (option unit) :=
  let process := processCertificate env remote recipients template templateId
                                    (length newCertificates) in
  done <~ batchLoop (length newCertificates) process newCertificates 0
                    (mkCounts 0 0) ;;
  match done with
  | Some counts => reportBulk counts ;;; ret (Some tt)
  | None => ret None
  end.

Definition settle (env : Env) (remote : Remote) (task : Task) : Action (option unit) :=
  match task with
  | PersistOne id db _ _ => settleOne remote id db ;;; ret (Some tt)
  | PersistBulk newCertificates recipients template templateId =>
      settleBulk env remote newCertificates recipients template templateId
  end.

(** Settling a list of promise chains, one after the other. *)
Fixpoint settleAll (env : Env) (remote : Remote) (tasks : list Task) : Action unit :=
  match tasks with
  | [] => ret tt
  | task :: tasks' => settle env remote task ;;; settleAll env remote tasks'
  end.

(** An action that leaves the store as it finds it. *)
Definition keeps_store {A} (m : Action A) : Prop :=
  forall w, store (snd (m w)) = store w.

(** ** Upload of a rendered PDF to object storage *)

Definition BUCKET_NAME : string := "certificates".
Definition MAX_RETRIES : nat := 3.
Definition RETRY_DELAY : Z := 1000.

Inductive Method := POST | PUT.

(** A [Response]: its status, and what [response.text()] resolves to
    ([None] when reading the body rejects). *)
Record Response := mkResponse { status : Z; text : option string }.

(** [response.ok] *)
Definition ok (r : Response) : bool :=
  bool_decide (200 <= status r <= 299).

(** [fetch] either rejects or resolves to a response. *)
Inductive FetchResult := Rejects | Resolves (r : Response).

Inductive NetEvent :=
  | Fetch (m : Method) (url : string)
  | LogExists (fileName : string)
  | LogUploaded (publicUrl : string)
  | ErrorAttempt (attempt : nat)
  | Sleep (ms : Z).

(** The network answers a request knowing everything that happened before. *)
Definition Network : Type := list NetEvent -> Method -> string -> FetchResult.

Definition Upload : Type -> Type := M (list NetEvent).

Definition note (e : NetEvent) : Upload unit := fun h => (tt, h ++ [e]).
Definition fetch (net : Network) (m : Method) (url : string) : Upload FetchResult :=
  fun h => (net h m url, h ++ [Fetch m url]).
(** [await sleep(ms)] *)
Definition sleep (ms : Z) : Upload unit := note (Sleep ms).

(** What the [try] block of one attempt throws. *)
Inductive AttemptError :=
  | Rejected                          (* [fetch] or [text()] rejected *)
  | UploadFailed (errorText : string) (* "Upload failed: ..." *)
  | UpdateFailed (errorText : string) (* "Failed to update file: ..." *).

(** What [uploadCertificatePDF] settles to. *)
Inductive UploadResult :=
  | Returned (publicUrl : string)
  | ThrewAfterRetries (attempts : nat) (last : AttemptError)
  | ThrewUnexpected
  | OutOfFuel.

Definition objectUrl (supabaseUrl filePath : string) : string :=
  supabaseUrl +:+ "/storage/v1/object/" +:+ BUCKET_NAME +:+ "/" +:+ filePath.

Definition getCertificatePDFUrl (supabaseUrl certificateCode : string) : string :=
  let fileName := certificateCode +:+ ".pdf" in
  supabaseUrl +:+ "/storage/v1/object/public/" +:+ BUCKET_NAME +:+ "/" +:+ fileName.

(** The body of the [try] block: one create, turned into an update on a
    conflict. *)
Definition attemptUpload (net : Network) (supabaseUrl fileName filePath : string)
    : Upload (AttemptError + string) :=
  response <~ fetch net POST (objectUrl supabaseUrl filePath) ;;
  match response with
  | Rejects => ret (inl Rejected)
  | Resolves response =>
      let succeed :=
        let publicUrl := supabaseUrl +:+ "/storage/v1/object/public/" +:+
                         BUCKET_NAME +:+ "/" +:+ filePath in
        note (LogUploaded publicUrl) ;;; ret (inr publicUrl) in
      if ok response then succeed
      else
        match text response with
        | None => ret (inl Rejected)
        | Some errorText =>
            if bool_decide (status response = 409) then
              note (LogExists fileName) ;;;
              updateResponse <~ fetch net PUT (objectUrl supabaseUrl filePath) ;;
              match updateResponse with
              | Rejects => ret (inl Rejected)
              | Resolves updateResponse =>
                  if ok updateResponse then succeed
                  else
                    match text updateResponse with
                    | None => ret (inl Rejected)
                    | Some t => ret (inl (UpdateFailed t))
                    end
              end
            else ret (inl (UploadFailed errorText))
        end
  end.

(** [for (let attempt = 1; attempt <= MAX_RETRIES; attempt++)] *)
Fixpoint retryLoop (fuel : nat) (net : Network)
    (supabaseUrl fileName filePath : string) (attempt : nat) : Upload UploadResult :=
  if bool_decide (attempt <= MAX_RETRIES)%nat then
    match fuel with
    | O => ret OutOfFuel
    | S fuel' =>
        r <~ attemptUpload net supabaseUrl fileName filePath ;;
        match r with
        | inr publicUrl => ret (Returned publicUrl)
        | inl error =>
            note (ErrorAttempt attempt) ;;;
            if bool_decide (attempt = MAX_RETRIES)
            then ret (ThrewAfterRetries MAX_RETRIES error)
            else
              sleep (RETRY_DELAY * Z.of_nat attempt) ;;;
              retryLoop fuel' net supabaseUrl fileName filePath (S attempt)
        end
    end
  else ret ThrewUnexpected.

Definition uploadCertificatePDF (net : Network) (supabaseUrl certificateCode : string)
    : Upload UploadResult :=
  let fileName := certificateCode +:+ ".pdf" in
  let filePath := fileName in
  retryLoop MAX_RETRIES net supabaseUrl fileName filePath 1.

(** ** JavaScript values and JSON text *)

(** The values the store holds and [JSON.parse] produces.  A string is a
    sequence of 8-bit code units; an object is its list of own properties
    in enumeration order, without repeated keys. *)
#[warnings="-register-all"]
Inductive value :=
  | Null
  | Bool (b : bool)
  | Num (n : number)
  | Str (s : string)
  | Arr (elements : list value)
  | Obj (properties : list (string * value)).

(** Truthiness, and [a || b] on values ([None] is [undefined]). *)
Definition truthy (v : value) : bool :=
  match v with
  | Null => false
  | Bool b => b
  | Num (Int z) => negb (bool_decide (z = 0))
  | Num NaN => false
  | Num (Infinity _) => true
  | Str s => negb (bool_decide (s = ""))
  | Arr _ | Obj _ => true
  end.

Definition or_else (a : option value) (b : value) : value :=
  match a with
  | Some v => if truthy v then v else b
  | None => b
  end.

(** Own property of an object. *)
Fixpoint lookup_key (k : string) (l : list (string * value)) : option value :=
  match l with
  | [] => None
  | (k', v) :: l' => if bool_decide (k' = k) then Some v else lookup_key k l'
  end.

(** [CreateDataProperty]: an existing key keeps its place and takes the
    new value, a new key goes last. *)
Fixpoint set_key (k : string) (v : value) (l : list (string * value))
    : list (string * value) :=
  match l with
  | [] => [(k, v)]
  | (k', v') :: l' =>
      if bool_decide (k' = k) then (k, v) :: l' else (k', v') :: set_key k v l'
  end.

Definition object_of (members : list (string * value)) : list (string * value) :=
  fold_left (fun o kv => set_key (fst kv) (snd kv) o) members [].

(** [v.k] for a key [k] that is not an array index, not ["length"] and not
    a name defined on a built-in prototype (the store reads [templates],
    [recipients], [certificates], [collections] and [id]).  The outer
    [None] is the [TypeError] of reading a property of [null]; the inner
    [None] is [undefined]. *)
Definition member (k : string) (v : value) : option (option value) :=
  match v with
  | Null => None
  | Obj l => Some (lookup_key k l)
  | Bool _ | Num _ | Str _ | Arr _ => Some None
  end.

(** [a?.[0]] *)
Definition first (a : option value) : option value :=
  match a with
  | None | Some Null => None
  | Some (Arr l) => head l
  | Some (Str s) =>
      match s with
      | EmptyString => None
      | String c _ => Some (Str (String c EmptyString))
      end
  | Some (Obj l) => lookup_key "0" l
  | Some (Bool _) | Some (Num _) => None
  end.

(** [a?.k], for the keys [member] covers. *)
Definition member_opt (k : string) (a : option value) : option value :=
  match a with
  | None => None
  | Some v => default None (member k v)
  end.

(** Values whose numbers are finite and whose objects repeat no key, at
    any depth. *)
#[warnings="-register-all"]
Inductive well_formed : value -> Prop :=
  | wf_Null : well_formed Null
  | wf_Bool b : well_formed (Bool b)
  | wf_Num z : well_formed (Num (Int z))
  | wf_Str s : well_formed (Str s)
  | wf_Arr l : Forall well_formed l -> well_formed (Arr l)
  | wf_Obj l : NoDup (map fst l) -> Forall (fun kv => well_formed (snd kv)) l ->
               well_formed (Obj l).

(** *** JSON.stringify(v, null, 2) *)

Local Open Scope char_scope.

Definition hex_digit (n : N) : ascii :=
  ascii_of_N (if (n <? 10)%N then 48 + n else 87 + n).

(** [QuoteJSONString], one code unit. *)
Definition escape (c : ascii) : list ascii :=
  match c with
  | "034" => ["\"; "034"]
  | "\" => ["\"; "\"]
  | "008" => ["\"; "b"]
  | "009" => ["\"; "t"]
  | "010" => ["\"; "n"]
  | "012" => ["\"; "f"]
  | "013" => ["\"; "r"]
  | _ =>
      let n := N_of_ascii c in
      if (n <? 32)%N
      then ["\"; "u"; "0"; "0"; hex_digit (n / 16); hex_digit (n mod 16)]
      else [c]
  end.

Definition quote (s : string) : list ascii :=
  "034" :: flat_map escape (list_ascii_of_string s) ++ ["034"].

Fixpoint print_uint (u : uint) : list ascii :=
  match u with
  | Nil => []
  | D0 u => "0" :: print_uint u
  | D1 u => "1" :: print_uint u
  | D2 u => "2" :: print_uint u
  | D3 u => "3" :: print_uint u
  | D4 u => "4" :: print_uint u
  | D5 u => "5" :: print_uint u
  | D6 u => "6" :: print_uint u
  | D7 u => "7" :: print_uint u
  | D8 u => "8" :: print_uint u
  | D9 u => "9" :: print_uint u
  end.

Definition print_Z (n : Z) : list ascii :=
  match n with
  | Z0 => ["0"]
  | Zpos p => print_uint (Pos.to_uint p)
  | Zneg p => "-" :: print_uint (Pos.to_uint p)
  end.

(** A line feed followed by the current indentation. *)
Definition newline (indent : nat) : list ascii := "010" :: replicate indent " ".

Fixpoint join (sep : list ascii) (parts : list (list ascii)) : list ascii :=
  match parts with
  | [] => []
  | [p] => p
  | p :: parts' => p ++ sep ++ join sep parts'
  end.

(** [SerializeJSONProperty] with a gap of two spaces. *)
Fixpoint print (indent : nat) (v : value) : list ascii :=
  match v with
  | Null => list_ascii_of_string "null"
  | Bool true => list_ascii_of_string "true"
  | Bool false => list_ascii_of_string "false"
  | Num (Int z) => print_Z z
  | Num NaN | Num (Infinity _) => list_ascii_of_string "null"
  | Str s => quote s
  | Arr [] => ["["; "]"]
  | Arr l =>
      "[" :: newline (indent + 2) ++
      join ("," :: newline (indent + 2)) (map (print (indent + 2)) l) ++
      newline indent ++ ["]"]
  | Obj [] => ["{"; "}"]
  | Obj l =>
      "{" :: newline (indent + 2) ++
      join ("," :: newline (indent + 2))
           (map (fun kv => quote (fst kv) ++ ":" :: " " :: print (indent + 2) (snd kv)) l) ++
      newline indent ++ ["}"]
  end.

Definition JSON_stringify (v : value) : string :=
  string_of_list_ascii (print 0 v).

(** *** JSON.parse *)

Definition is_ws (c : ascii) : bool :=
  match c with
  | " " | "009" | "010" | "013" => true
  | _ => false
  end.

Fixpoint skip_ws (s : list ascii) : list ascii :=
  match s with
  | c :: s' => if is_ws c then skip_ws s' else s
  | [] => []
  end.

Definition digit (c : ascii) : option (uint -> uint) :=
  match c with
  | "0" => Some D0 | "1" => Some D1 | "2" => Some D2 | "3" => Some D3
  | "4" => Some D4 | "5" => Some D5 | "6" => Some D6 | "7" => Some D7
  | "8" => Some D8 | "9" => Some D9
  | _ => None
  end.

(** The longest prefix of decimal digits. *)
Fixpoint scan_digits (s : list ascii) : uint * list ascii :=
  match s with
  | c :: s' =>
      match digit c with
      | Some d => let (u, r) := scan_digits s' in (d u, r)
      | None => (Nil, s)
      end
  | [] => (Nil, [])
  end.

(** An integer literal: at least one digit, no leading zero. *)
Definition parse_digits (s : list ascii) : option (N * list ascii) :=
  let (u, r) := scan_digits s in
  if uint_eq_dec (unorm u) u then Some (N.of_uint u, r) else None.

Definition hex_value (c : ascii) : option N :=
  let n := N_of_ascii c in
  if ((48 <=? n) && (n <=? 57))%N then Some (n - 48)%N
  else if ((97 <=? n) && (n <=? 102))%N then Some (n - 87)%N
  else if ((65 <=? n) && (n <=? 70))%N then Some (n - 55)%N
  else None.

(** [\uXXXX], kept when the code unit fits the 8-bit strings of the model. *)
Definition unicode_escape (a b c d : ascii) : option ascii :=
  match hex_value a, hex_value b, hex_value c, hex_value d with
  | Some a, Some b, Some c, Some d =>
      let n := (((a * 16 + b) * 16 + c) * 16 + d)%N in
      if (n <? 256)%N then Some (ascii_of_N n) else None
  | _, _, _, _ => None
  end.

Definition simple_escape (c : ascii) : option ascii :=
  match c with
  | "034" => Some "034"
  | "\" => Some "\"
  | "/" => Some "/"
  | "b" => Some "008"
  | "f" => Some "012"
  | "n" => Some "010"
  | "r" => Some "013"
  | "t" => Some "009"
  | _ => None
  end.

Definition cons_char (c : ascii) (r : option (string * list ascii))
    : option (string * list ascii) :=
  match r with
  | Some (s, rest) => Some (String c s, rest)
  | None => None
  end.

(** The characters of a string literal after its opening quote. *)
Fixpoint parse_chars (s : list ascii) : option (string * list ascii) :=
  match s with
  | [] => None
  | "034" :: rest => Some (EmptyString, rest)
  | "\" :: "u" :: a :: b :: c :: d :: rest =>
      match unicode_escape a b c d with
      | Some ch => cons_char ch (parse_chars rest)
      | None => None
      end
  | "\" :: e :: rest =>
      match simple_escape e with
      | Some ch => cons_char ch (parse_chars rest)
      | None => None
      end
  | "\" :: [] => None
  | c :: rest =>
      if (N_of_ascii c <? 32)%N then None else cons_char c (parse_chars rest)
  end.

(** [s] without the prefix [p], when it starts with it. *)
Fixpoint strip_prefix (p s : list ascii) : option (list ascii) :=
  match p, s with
  | [], _ => Some s
  | a :: p', b :: s' => if Ascii.eqb a b then strip_prefix p' s' else None
  | _ :: _, [] => None
  end.

Definition literal (p : string) (v : value) (s : list ascii)
    : option (value * list ascii) :=
  match strip_prefix (list_ascii_of_string p) s with
  | Some r => Some (v, r)
  | None => None
  end.

(** Recursive descent over the text; [fuel] bounds the nesting of calls. *)
Fixpoint parse_value (fuel : nat) (s : list ascii) {struct fuel}
    : option (value * list ascii) :=
  match fuel with
  | O => None
  | S fuel =>
      match skip_ws s with
      | [] => None
      | c :: r =>
          if Ascii.eqb c "n" then literal "ull" Null r
          else if Ascii.eqb c "t" then literal "rue" (Bool true) r
          else if Ascii.eqb c "f" then literal "alse" (Bool false) r
          else if Ascii.eqb c "034" then
            match parse_chars r with
            | Some (str, r') => Some (Str str, r')
            | None => None
            end
          else if Ascii.eqb c "[" then
            match skip_ws r with
            | "]" :: r' => Some (Arr [], r')
            | _ =>
                match parse_elements fuel r with
                | Some (l, r') => Some (Arr l, r')
                | None => None
                end
            end
          else if Ascii.eqb c "{" then
            match skip_ws r with
            | "}" :: r' => Some (Obj [], r')
            | _ =>
                match parse_members fuel r with
                | Some (l, r') => Some (Obj (object_of l), r')
                | None => None
                end
            end
          else if Ascii.eqb c "-" then
            match parse_digits r with
            | Some (n, r') => Some (Num (Int (- Z.of_N n)), r')
            | None => None
            end
          else
            match parse_digits (c :: r) with
            | Some (n, r') => Some (Num (Int (Z.of_N n)), r')
            | None => None
            end
      end
  end
with parse_elements (fuel : nat) (s : list ascii) {struct fuel}
    : option (list value * list ascii) :=
  match fuel with
  | O => None
  | S fuel =>
      match parse_value fuel s with
      | Some (v, r) =>
          match skip_ws r with
          | "," :: r' =>
              match parse_elements fuel r' with
              | Some (l, r'') => Some (v :: l, r'')
              | None => None
              end
          | "]" :: r' => Some ([v], r')
          | _ => None
          end
      | None => None
      end
  end
with parse_members (fuel : nat) (s : list ascii) {struct fuel}
    : option (list (string * value) * list ascii) :=
  match fuel with
  | O => None
  | S fuel =>
      match skip_ws s with
      | "034" :: r =>
          match parse_chars r with
          | Some (k, r1) =>
              match skip_ws r1 with
              | ":" :: r2 =>
                  match parse_value fuel r2 with
                  | Some (v, r3) =>
                      match skip_ws r3 with
                      | "," :: r4 =>
                          match parse_members fuel r4 with
                          | Some (l, r5) => Some ((k, v) :: l, r5)
                          | None => None
                          end
                      | "}" :: r4 => Some ([(k, v)], r4)
                      | _ => None
                      end
                  | None => None
                  end
              | _ => None
              end
          | None => None
          end
      | _ => None
      end
  end.

(** [JSON.parse]: one value, then nothing but white space.  A text of [n]
    characters nests fewer than [n] calls of each kind.  A number literal
    is an integer; a text with a fraction or an exponent is outside this
    embedding and is not parsed. *)
Definition JSON_parse (text : string) : option value :=
  let s := list_ascii_of_string text in
  match parse_value (2 * length s + 1) s with
  | Some (v, r) => match skip_ws r with [] => Some v | _ :: _ => None end
  | None => None
  end.

(** The text after a number must not continue it. *)
Definition no_digit (rest : list ascii) : Prop :=
  match rest with
  | c :: _ => digit c = None
  | [] => True
  end.

(** The characters a printed value can start with. *)
Definition starts_value (c : ascii) : bool :=
  match c with
  | "n" | "t" | "f" | "034" | "[" | "{" | "-" => true
  | _ => bool_decide (is_Some (digit c))
  end.

(** One property of a printed object. *)
Definition member_text (ind : nat) (kv : string * value) : list ascii :=
  quote (fst kv) ++ ":" :: " " :: print ind (snd kv).

(** What it means for a value to be read back from its text, whatever
    follows it and however deep it is indented. *)
Definition reads_back (v : value) : Prop :=
  forall ind fuel rest,
    (2 * length (print ind v) < fuel)%nat -> no_digit rest ->
    parse_value fuel (print ind v ++ rest) = Some (v, rest).

Local Close Scope char_scope.

(** ** The store as the runtime holds it *)

(** The object a record is at run time.  Optional members that are absent
    contribute no key.  The keys of a record come in one fixed order and
    those of the custom fields in the order of the finite map: the order
    of the keys in the exported text is not part of the model. *)
Definition optional {A} (k : string) (f : A -> value) (o : option A)
    : list (string * value) :=
  match o with
  | Some a => [(k, f a)]
  | None => []
  end.

Definition valueOfField (f : Field.t) : value :=
  Obj ([("id", Str (Field.id f)); ("name", Str (Field.name f));
        ("type", Str (Field.type f));
        ("x", Num (Field.x f)); ("y", Num (Field.y f))] ++
       optional "fontSize" Num (Field.fontSize f) ++
       optional "fontFamily" Str (Field.fontFamily f) ++
       optional "color" Str (Field.color f) ++
       optional "defaultValue" Str (Field.defaultValue f)).

Definition valueOfTemplate (t : Template.t) : value :=
  Obj [("id", Str (Template.id t)); ("name", Str (Template.name t));
       ("imageUrl", Str (Template.imageUrl t));
       ("fields", Arr (map valueOfField (Template.fields t)))].

Definition valueOfCustomFields (m : gmap string string) : value :=
  Obj (map (fun kv => (fst kv, Str (snd kv))) (map_to_list m)).

Definition valueOfRecipient (r : Recipient.t) : value :=
  Obj ([("id", Str (Recipient.id r)); ("name", Str (Recipient.name r))] ++
       optional "email" Str (Recipient.email r) ++
       optional "course" Str (Recipient.course r) ++
       optional "customFields" valueOfCustomFields (Recipient.customFields r) ++
       [("issueDate", Str (Recipient.issueDate r))]).

Definition valueOfCertificate (c : Certificate.t) : value :=
  Obj [("id", Str (Certificate.id c));
       ("recipientId", Str (Certificate.recipientId c));
       ("templateId", Str (Certificate.templateId c));
       ("qrCodeUrl", Str (Certificate.qrCodeUrl c));
       ("issueDate", Str (Certificate.issueDate c));
       ("verificationUrl", Str (Certificate.verificationUrl c));
       ("status", Str (Certificate.status c))].

Definition valueOfCollection (c : CertificateCollection.t) : value :=
  Obj ([("id", Str (CertificateCollection.id c));
        ("name", Str (CertificateCollection.name c))] ++
       optional "description" Str (CertificateCollection.description c) ++
       [("templateId", Str (CertificateCollection.templateId c));
        ("certificates",
         Arr (map valueOfCertificate (CertificateCollection.certificates c)));
        ("createdAt", Str (CertificateCollection.createdAt c))]).

(** The numbers of a field, and of all fields of a store, are finite. *)
Definition finite_field (f : Field.t) : Prop :=
  finite (Field.x f) /\ finite (Field.y f) /\
  match Field.fontSize f with
  | Some n => finite n
  | None => True
  end.

Definition finite_numbers (state : Store) : Prop :=
  Forall (fun t => Forall finite_field (Template.fields t)) (templates state).

(** The state object of the store at run time: [importData] puts whatever
    the parsed document holds into it, without looking at its shape. *)
Record RawStore := mkRaw {
  raw_templates : value;
  raw_recipients : value;
  raw_certificates : value;
  raw_collections : value;
  raw_currentTemplateId : value
}.

Definition toRaw (state : Store) : RawStore :=
  mkRaw (Arr (map valueOfTemplate (templates state)))
        (Arr (map valueOfRecipient (recipients state)))
        (Arr (map valueOfCertificate (certificates state)))
        (Arr (map valueOfCollection (collections state)))
        (match currentTemplateId state with
         | Some id => Str id
         | None => Null
         end).

(** The four containers and the keys they are exported under. *)
Inductive Container := Templates | Recipients | Certificates | Collections.

Definition key (c : Container) : string :=
  match c with
  | Templates => "templates"
  | Recipients => "recipients"
  | Certificates => "certificates"
  | Collections => "collections"
  end.

Definition container (c : Container) (state : RawStore) : value :=
  match c with
  | Templates => raw_templates state
  | Recipients => raw_recipients state
  | Certificates => raw_certificates state
  | Collections => raw_collections state
  end.

(** Whether the parsed document is an object with own property [k]. *)
Definition has_key (k : string) (data : value) : bool :=
  match data with
  | Obj l => bool_decide (is_Some (lookup_key k l))
  | _ => false
  end.

(** ** Export and import *)

Definition exportData (state : RawStore) : string :=
  JSON_stringify
    (Obj [("templates", raw_templates state);
          ("recipients", raw_recipients state);
          ("certificates", raw_certificates state);
          ("collections", raw_collections state)]).

(** The [try] block either runs to its [set], or a property read throws
    and the [catch] leaves the state as it was. *)
Definition importData (jsonData : string) (state : RawStore) : RawStore :=
  match JSON_parse jsonData with
  | None => state
  | Some data =>
      match member "templates" data, member "recipients" data,
            member "certificates" data, member "collections" data with
      | Some t, Some r, Some c, Some k =>
          mkRaw (or_else t (Arr [])) (or_else r (Arr []))
                (or_else c (Arr [])) (or_else k (Arr []))
                (or_else (member_opt "id" (first t)) Null)
      | _, _, _, _ => state
      end
  end.

(** ** Concrete stores used as examples *)

(** A store whose first template has the empty string as its id. *)
Definition store_with_empty_id : Store :=
  mkStore [Template.mk "" "Untitled" "/assets/blank.jpg" []] [] [] [] None.

(** A store with a template whose only field has a coordinate that is
    not a number. *)
Definition store_with_NaN : Store :=
  mkStore [Template.mk "t1" "Course" "/assets/course.jpg"
             [Field.mk "f1" "recipient" "text" NaN (Int 40) None None None None]]
          [] [] [] None.

(** A store holding one certificate, as the runtime holds it. *)
Definition store_with_certificate : RawStore :=
  toRaw (mkStore [] []
           [Certificate.mk "c1" "r1" "t1" "/verify/c1" "2025-01-01T00:00:00.000Z"
                           "/verify/c1" "published"] [] None).

(** A payload and a store with one template, which is current. *)
Definition example_payload : Template.payload :=
  Template.mkPayload "Renamed" "/assets/new.jpg" [].

Definition example_template : Template.t :=
  Template.mk "t1" "Course" "/assets/course.jpg"
    [Field.mk "f1" "recipient" "text" (Int 30) (Int 40) (Some (Int 28))
              (Some "Sora, sans-serif") (Some "#1a365d") None].

Definition example_store : Store :=
  mkStore [example_template] [] [] [] (Some "t1").

(** The same store before any template was made current. *)
Definition store_without_current : Store :=
  mkStore (templates example_store) [] [] [] None.

(** Two templates, the second with the empty string as its id; the first
    is current. *)
Definition store_with_two_templates : Store :=
  mkStore [example_template;
           Template.mk "" "Untitled" "/assets/blank.jpg" []]
          [] [] [] (Some "t1").

(** A store with a certificate that is also in a collection. *)
Definition example_certificate (id recipientId : string) : Certificate.t :=
  Certificate.mk id recipientId "t1" "/verify/x" "2025-01-01T00:00:00.000Z"
                 "/verify/x" "published".

Definition store_with_collection : Store :=
  mkStore [] []
    [example_certificate "c1" "r1"; example_certificate "c2" "r2";
     example_certificate "c3" "r1"]
    [CertificateCollection.mk "k1" "Batch" None "t1"
       [example_certificate "c1" "r1"] "2025-01-02T00:00:00.000Z"]
    None.

(** An environment and a world to run the issuance in. *)
Definition example_env : Env :=
  mkEnv (Some "https://x.test")
        (fun n => String (ascii_of_nat (97 + n)) "id")
        (fun _ => "2025-01-01T00:00:00.000Z").

Definition example_world : World := mkWorld example_store 0 0 [] [].

(** A storage service on which the object already exists: a create is
    answered 409, an update 200. *)
Definition conflicting_network : Network :=
  fun _ m _ =>
    match m with
    | POST => Resolves (mkResponse 409 (Some "Duplicate"))
    | PUT => Resolves (mkResponse 200 (Some "ok"))
    end.

(** ** More of the store: collections updated in place *)

(** [Partial<CertificateCollection>]: every member may be absent. *)
Record CollectionUpdates := mkCollectionUpdates {
  k_id : option string;
  k_name : option string;
  k_description : option (option string);
  k_templateId : option string;
  k_certificates : option (list Certificate.t);
  k_createdAt : option string
}.

(** [{ ...c, ...updates }] on a collection. *)
Definition spreadCollection (c : CertificateCollection.t) (u : CollectionUpdates)
    : CertificateCollection.t :=
  CertificateCollection.mk
    (default (CertificateCollection.id c) (k_id u))
    (default (CertificateCollection.name c) (k_name u))
    (default (CertificateCollection.description c) (k_description u))
    (default (CertificateCollection.templateId c) (k_templateId u))
    (default (CertificateCollection.certificates c) (k_certificates u))
    (default (CertificateCollection.createdAt c) (k_createdAt u)).

Definition updateCollection (id : string) (updates : CollectionUpdates)
    (state : Store) : Store :=
  mkStore
    (templates state) (recipients state) (certificates state)
    (map (fun c => if bool_decide (CertificateCollection.id c = id)
                   then spreadCollection c updates else c)
         (collections state))
    (currentTemplateId state).

(** [{ ...u1, ...u2 }] on two partial certificates. *)
Definition spreadPartial (u1 u2 : Certificate.partial) : Certificate.partial :=
  Certificate.mkPartial
    (match Certificate.u_id u2 with Some x => Some x | None => Certificate.u_id u1 end)
    (match Certificate.u_recipientId u2 with
     | Some x => Some x | None => Certificate.u_recipientId u1 end)
    (match Certificate.u_templateId u2 with
     | Some x => Some x | None => Certificate.u_templateId u1 end)
    (match Certificate.u_qrCodeUrl u2 with
     | Some x => Some x | None => Certificate.u_qrCodeUrl u1 end)
    (match Certificate.u_issueDate u2 with
     | Some x => Some x | None => Certificate.u_issueDate u1 end)
    (match Certificate.u_verificationUrl u2 with
     | Some x => Some x | None => Certificate.u_verificationUrl u1 end)
    (match Certificate.u_status u2 with
     | Some x => Some x | None => Certificate.u_status u1 end).

(** ** Notions the properties of the store are stated with *)

(** The current template, when there is one, is a template of the store. *)
Definition current_valid (state : Store) : Prop :=
  forall id, currentTemplateId state = Some id ->
             id ∈ map Template.id (templates state).

(** The ids of the members of a collection. *)
Definition member_ids (c : CertificateCollection.t) : list string :=
  map Certificate.id (CertificateCollection.certificates c).

(** How many inserts were requested in a trace. *)
Fixpoint count_inserts (t : list Event) : nat :=
  match t with
  | [] => 0
  | InsertCertificate _ :: t' => S (count_inserts t')
  | _ :: t' => count_inserts t'
  end.

(** The certificate the [i]-th callback of [generateBulkCertificates]
    builds, in a world that has drawn [n] ids and read the clock [k] times. *)
Definition bulkCertificate (env : Env) (templateId : string) (n k : nat)
    (i : nat) (recipientId : string) : Certificate.t :=
  let id := nanoid env (n + i) in
  let verificationUrl := baseUrl env +:+ "/verify/" +:+ id in
  Certificate.mk id recipientId templateId verificationUrl
                 (toISOString env (k + i)) verificationUrl "published".

(** Two partial updates of a certificate. *)
Definition revoke : Certificate.partial :=
  Certificate.mkPartial None None None None None None (Some "revoked").

Definition reissue : Certificate.partial :=
  Certificate.mkPartial None None None None (Some "2025-02-01T00:00:00.000Z")
                        None (Some "published").

(** A world over the store with three certificates. *)
Definition example_collection_world : World :=
  mkWorld store_with_collection 0 0 [] [].


(** ** What an upload puts on the wire *)

(** The number of requests of one method in a history. *)
Definition requests (m : Method) (t : list NetEvent) : nat :=
  length (List.filter (fun e => match e, m with
                                | Fetch POST _, POST | Fetch PUT _, PUT => true
                                | _, _ => false
                                end) t).

(** The URLs requested in a history, in order. *)
Definition targets (t : list NetEvent) : list string :=
  omap (fun e => match e with Fetch _ url => Some url | _ => None end) t.

(** The time slept in a history, in milliseconds. *)
Definition slept (t : list NetEvent) : Z :=
  foldr (fun e ms => match e with Sleep d => d + ms | _ => ms end) 0 t.

(** ** The other requests to object storage *)

(** The methods of the requests that carry no body; a [fetch] without
    options is a [GET]. *)
Inductive Verb := GET | HEAD | DELETE.

(** Each of the functions below sends one request; the service answers
    by method and URL. *)
Definition Storage : Type := Verb -> string -> FetchResult.

(** What [deleteCertificatePDF] settles to: it resolves, or it rethrows
    what its [try] block threw (console output is left out). *)
Inductive DeleteResult :=
  | Deleted
  | DeleteFailed (errorText : string)  (* "Failed to delete certificate: ..." *)
  | DeleteRejected                     (* [fetch] or [text()] rejected *).

Definition deleteCertificatePDF (net : Storage) (supabaseUrl certificateCode : string)
    : DeleteResult :=
  let fileName := certificateCode +:+ ".pdf" in
  let filePath := fileName in
  match net DELETE (objectUrl supabaseUrl filePath) with
  | Rejects => DeleteRejected
  | Resolves response =>
      if negb (ok response) && negb (bool_decide (status response = 404)) then
        match text response with
        | Some errorText => DeleteFailed errorText
        | None => DeleteRejected
        end
      else Deleted
  end.

Definition checkCertificatePDFExists (net : Storage) (supabaseUrl certificateCode : string)
    : bool :=
  let url := getCertificatePDFUrl supabaseUrl certificateCode in
  match net HEAD url with
  | Rejects => false
  | Resolves response => ok response
  end.

(** [/[^a-z0-9]/gi] on one code unit: without the [u] flag the class
    matches the ASCII letters of both cases and the digits, and nothing
    else. *)
Definition alphanumeric (c : ascii) : bool :=
  let n := N_of_ascii c in
  ((48 <=? n) && (n <=? 57) || (65 <=? n) && (n <=? 90) ||
   (97 <=? n) && (n <=? 122))%N.

(** [String.prototype.toLowerCase] on one code unit, for the ASCII range
    (the only code units it meets below). *)
Definition lower (c : ascii) : ascii :=
  let n := N_of_ascii c in
  if ((65 <=? n) && (n <=? 90))%N then ascii_of_N (n + 32) else c.

(** [s.replace(/[^a-z0-9]/gi, '-').toLowerCase()] *)
Fixpoint sanitize (s : string) : string :=
  match s with
  | EmptyString => EmptyString
  | String c s' =>
      String (lower (if alphanumeric c then c else "-"%char)) (sanitize s')
  end.

(** The [download] attribute of the link that is clicked. *)
Definition downloadName (certificateCode : string) (recipientName : option string)
    : string :=
  match recipientName with
  | Some name =>
      if decide (name = "") then certificateCode +:+ ".pdf"
      else sanitize name +:+ "-certificate.pdf"
  | None => certificateCode +:+ ".pdf"
  end.

(** What [downloadCertificatePDF] settles to: the file is saved under a
    name, or the function rethrows.  [response.blob()] reads the body
    that [response.text()] reads, and rejects when that is [None]; the
    calls on [document] and [window.URL] are taken not to throw. *)
Inductive DownloadResult :=
  | Saved (fileName : string)
  | DownloadFailed (response : Response)  (* "Failed to download certificate: ..." *)
  | DownloadRejected                      (* [fetch] or [blob()] rejected *).

Definition downloadCertificatePDF (net : Storage) (supabaseUrl certificateCode : string)
    (recipientName : option string) : DownloadResult :=
  let url := getCertificatePDFUrl supabaseUrl certificateCode in
  match net GET url with
  | Rejects => DownloadRejected
  | Resolves response =>
      if negb (ok response) then DownloadFailed response
      else
        match text response with
        | None => DownloadRejected
        | Some _ => Saved (downloadName certificateCode recipientName)
        end
  end.

(** A storage service that holds every object asked for. *)
Definition serving_storage : Storage :=
  fun _ _ => Resolves (mkResponse 200 (Some "%PDF")).

(** A storage service that holds no object. *)
Definition empty_storage : Storage :=
  fun _ _ => Resolves (mkResponse 404 (Some "Not found")).

(** A code unit that is a digit, a lower-case ASCII letter or a dash. *)
Definition plain (c : ascii) : bool :=
  let n := N_of_ascii c in
  ((48 <=? n) && (n <=? 57) || (97 <=? n) && (n <=? 122) || (n =? 45))%N.

(** * Properties *)

(** ** The model at work on concrete inputs *)

Example parse_array :
  JSON_parse "[1, -20, [true, null], {}]" =
  Some (Arr [Num 1; Num (-20); Arr [Bool true; Null]; Obj []]).
Proof. vm_compute. reflexivity. Qed.

Example parse_leading_zero : JSON_parse "[01]" = None.
Proof. vm_compute. reflexivity. Qed.

Example parse_trailing_comma : JSON_parse "[1, 2, ]" = None.
Proof. vm_compute. reflexivity. Qed.

Example parse_repeated_key :
  JSON_parse (JSON_stringify (Obj [("a", Num 1); ("b", Num 2)]) ) =
  Some (Obj [("a", Num 1); ("b", Num 2)]) /\
  object_of [("a", Num 1); ("b", Num 2); ("a", Num 3)] =
  [("a", Num 3); ("b", Num 2)].
Proof. vm_compute. split; reflexivity. Qed.

Example import_of_array_empties :
  importData "[1, 2]" store_with_certificate =
  mkRaw (Arr []) (Arr []) (Arr []) (Arr []) Null.
Proof. vm_compute. reflexivity. Qed.

Example delete_current_template :
  deleteTemplate "t1" example_store = mkStore [] [] [] [] None.
Proof. vm_compute. reflexivity. Qed.

Example delete_recipient_r1 :
  map Certificate.id (certificates (deleteRecipient "r1" store_with_collection))
  = ["c2"].
Proof. vm_compute. reflexivity. Qed.

Example add_to_collection :
  map (fun k => map Certificate.id (CertificateCollection.certificates k))
      (collections (addCertificatesToCollection "k1" ["c1"; "c3"; "c9"]
                      store_with_collection))
  = [["c1"; "c3"]].
Proof. vm_compute. reflexivity. Qed.

Example issue_one :
  let result := generateCertificate example_env "r1" "t1" example_world in
  fst result = "aid" /\
  map Certificate.verificationUrl (certificates (store (snd result)))
  = ["https://x.test/verify/aid"] /\
  trace (snd result) = [ErrorMissing "aid"] /\
  pending (snd result) = [].
Proof. vm_compute. repeat split. Qed.

Example upload_succeeds_on_third_attempt :
  uploadCertificatePDF
    (fun h _ _ => if bool_decide (length h < 5)%nat then Rejects
                  else Resolves (mkResponse 201 None))
    "https://s.test" "abc" [] =
  (Returned "https://s.test/storage/v1/object/public/certificates/abc.pdf",
   [Fetch POST "https://s.test/storage/v1/object/certificates/abc.pdf";
    ErrorAttempt 1; Sleep 1000;
    Fetch POST "https://s.test/storage/v1/object/certificates/abc.pdf";
    ErrorAttempt 2; Sleep 2000;
    Fetch POST "https://s.test/storage/v1/object/certificates/abc.pdf";
    LogUploaded "https://s.test/storage/v1/object/public/certificates/abc.pdf"]).
Proof. vm_compute. reflexivity. Qed.

Example upload_gives_up :
  fst (uploadCertificatePDF (fun _ _ _ => Resolves (mkResponse 500 (Some "boom")))
         "https://s.test" "abc" [])
  = ThrewAfterRetries 3 (UploadFailed "boom").
Proof. vm_compute. reflexivity. Qed.

(** ** JSON text is read back as the value it was printed from *)

(** Induction that reaches the elements of arrays and objects. *)
Lemma value_nested_ind (P : value -> Prop) :
  P Null -> (forall b, P (Bool b)) -> (forall n, P (Num n)) ->
  (forall s, P (Str s)) ->
  (forall l, Forall P l -> P (Arr l)) ->
  (forall l, Forall (fun kv => P (snd kv)) l -> P (Obj l)) ->
  forall v, P v.
Proof.
  intros HNull HBool HNum HStr HArr HObj.
  fix IH 1. intros v. destruct v as [ | b | n | s | l | l ].
  - exact HNull.
  - apply HBool.
  - apply HNum.
  - apply HStr.
  - apply HArr. induction l as [ | v l IHl ]; constructor; [ apply IH | exact IHl ].
  - apply HObj. induction l as [ | [k v] l IHl ]; constructor; [ apply IH | exact IHl ].
Qed.


Section JsonText.
Local Open Scope char_scope.

Lemma skip_ws_idem s : skip_ws (skip_ws s) = skip_ws s.
Proof.
  induction s as [ | c s IH ]; simpl; [ reflexivity | ].
  destruct (is_ws c) eqn:E; [ exact IH | simpl; rewrite E; reflexivity ].
Qed.

Lemma skip_ws_newline n s : skip_ws (newline n ++ s) = skip_ws s.
Proof.
  unfold newline. simpl. induction n as [ | n IH ]; simpl; auto.
Qed.

Lemma parse_value_skip fuel s : parse_value fuel (skip_ws s) = parse_value fuel s.
Proof. destruct fuel; simpl; [ reflexivity | rewrite skip_ws_idem; reflexivity ]. Qed.

Lemma parse_members_skip fuel s : parse_members fuel (skip_ws s) = parse_members fuel s.
Proof. destruct fuel; simpl; [ reflexivity | rewrite skip_ws_idem; reflexivity ]. Qed.

Lemma parse_elements_skip fuel s : parse_elements fuel (skip_ws s) = parse_elements fuel s.
Proof. destruct fuel; simpl; [ reflexivity | rewrite parse_value_skip; reflexivity ]. Qed.

Lemma parse_chars_escape c s :
  parse_chars (escape c ++ s) = cons_char c (parse_chars s).
Proof.
  destruct c as [[] [] [] [] [] [] [] []]; reflexivity.
Qed.

Lemma parse_chars_quoted s rest :
  parse_chars (flat_map escape (list_ascii_of_string s) ++ "034" :: rest)
  = Some (s, rest).
Proof.
  induction s as [ | c s IH ]; simpl; [ reflexivity | ].
  rewrite <- app_assoc, parse_chars_escape, IH. reflexivity.
Qed.


Lemma scan_digits_print u rest :
  no_digit rest -> scan_digits (print_uint u ++ rest) = (u, rest).
Proof.
  intros Hrest. induction u; simpl; try (rewrite IHu; reflexivity).
  destruct rest as [ | c rest ]; [ reflexivity | ].
  simpl in *. rewrite Hrest. reflexivity.
Qed.

Lemma to_uint_normal p : unorm (Pos.to_uint p) = Pos.to_uint p.
Proof.
  rewrite <- (DecimalN.Unsigned.to_of (Pos.to_uint p)).
  change (N.of_uint (Pos.to_uint p)) with (Pos.of_uint (Pos.to_uint p)).
  rewrite DecimalPos.Unsigned.of_to. reflexivity.
Qed.

Lemma parse_digits_print p rest :
  no_digit rest ->
  parse_digits (print_uint (Pos.to_uint p) ++ rest) = Some (N.pos p, rest).
Proof.
  intros Hrest. unfold parse_digits. rewrite scan_digits_print by exact Hrest.
  destruct (uint_eq_dec _ _) as [ _ | Hn ].
  - change (N.of_uint (Pos.to_uint p)) with (Pos.of_uint (Pos.to_uint p)).
    rewrite DecimalPos.Unsigned.of_to. reflexivity.
  - destruct Hn. apply to_uint_normal.
Qed.

(** A printed positive number starts with a digit. *)
Lemma print_uint_head p :
  exists c s, print_uint (Pos.to_uint p) = c :: s /\ is_Some (digit c).
Proof.
  pose proof (DecimalPos.Unsigned.to_uint_nonnil p) as Hnil.
  destruct (Pos.to_uint p); [ congruence | .. ]; simpl; eauto.
Qed.


(** One step of each parser, as equations. *)
Lemma parse_elements_S f s :
  parse_elements (S f) s =
  match parse_value f s with
  | Some (v, r) =>
      match skip_ws r with
      | "," :: r' =>
          match parse_elements f r' with
          | Some (l, r'') => Some (v :: l, r'')
          | None => None
          end
      | "]" :: r' => Some ([v], r')
      | _ => None
      end
  | None => None
  end.
Proof. reflexivity. Qed.

Lemma parse_members_S f s :
  parse_members (S f) s =
  match skip_ws s with
  | "034" :: r =>
      match parse_chars r with
      | Some (k, r1) =>
          match skip_ws r1 with
          | ":" :: r2 =>
              match parse_value f r2 with
              | Some (v, r3) =>
                  match skip_ws r3 with
                  | "," :: r4 =>
                      match parse_members f r4 with
                      | Some (l, r5) => Some ((k, v) :: l, r5)
                      | None => None
                      end
                  | "}" :: r4 => Some ([(k, v)], r4)
                  | _ => None
                  end
              | None => None
              end
          | _ => None
          end
      | None => None
      end
  | _ => None
  end.
Proof. reflexivity. Qed.

Lemma parse_value_newline f n s : parse_value f (newline n ++ s) = parse_value f s.
Proof. rewrite <- parse_value_skip, skip_ws_newline. apply parse_value_skip. Qed.

Lemma parse_elements_newline f n s :
  parse_elements f (newline n ++ s) = parse_elements f s.
Proof. rewrite <- parse_elements_skip, skip_ws_newline. apply parse_elements_skip. Qed.

Lemma parse_members_newline f n s :
  parse_members f (newline n ++ s) = parse_members f s.
Proof. rewrite <- parse_members_skip, skip_ws_newline. apply parse_members_skip. Qed.

Lemma print_starts ind v :
  exists c s, print ind v = c :: s /\ starts_value c = true.
Proof.
  destruct v as [ | [] | [ [ | p | p ] | | neg ] | s | [ | v l ] | [ | kv l ] ];
    try (do 2 eexists; split; [ reflexivity | reflexivity ]).
  destruct (print_uint_head p) as (c & s & Heq & Hc).
  exists c, s. split; [ exact Heq | ].
  destruct Hc as [d Hd].
  destruct c as [[] [] [] [] [] [] [] []]; try discriminate Hd; reflexivity.
Qed.

Lemma skip_ws_starts c s : starts_value c = true -> skip_ws (c :: s) = c :: s.
Proof.
  intros H. destruct c as [[] [] [] [] [] [] [] []]; try discriminate H; reflexivity.
Qed.

Lemma starts_not_close c : starts_value c = true -> c <> "]" /\ c <> "}".
Proof. intros H; split; intros ->; discriminate H. Qed.

Lemma parse_value_array f r :
  (forall r', skip_ws r <> "]" :: r') ->
  parse_value (S f) ("[" :: r) =
  match parse_elements f r with
  | Some (l, r') => Some (Arr l, r')
  | None => None
  end.
Proof.
  intros H.
  change (parse_value (S f) ("[" :: r)) with
    (match skip_ws r with
     | "]" :: r' => Some (Arr [], r')
     | _ => match parse_elements f r with
            | Some (l, r') => Some (Arr l, r')
            | None => None
            end
     end).
  destruct (skip_ws r) as [ | c r' ] eqn:E; [ reflexivity | ].
  destruct c as [[] [] [] [] [] [] [] []]; try reflexivity.
  destruct (H r'). reflexivity.
Qed.

Lemma parse_value_object f r :
  (forall r', skip_ws r <> "}" :: r') ->
  parse_value (S f) ("{" :: r) =
  match parse_members f r with
  | Some (l, r') => Some (Obj (object_of l), r')
  | None => None
  end.
Proof.
  intros H.
  change (parse_value (S f) ("{" :: r)) with
    (match skip_ws r with
     | "}" :: r' => Some (Obj [], r')
     | _ => match parse_members f r with
            | Some (l, r') => Some (Obj (object_of l), r')
            | None => None
            end
     end).
  destruct (skip_ws r) as [ | c r' ] eqn:E; [ reflexivity | ].
  destruct c as [[] [] [] [] [] [] [] []]; try reflexivity.
  destruct (H r'). reflexivity.
Qed.

Lemma parse_value_digits f c s :
  is_Some (digit c) ->
  parse_value (S f) (c :: s) =
  match parse_digits (c :: s) with
  | Some (n, r') => Some (Num (Int (Z.of_N n)), r')
  | None => None
  end.
Proof.
  intros [d Hd].
  destruct c as [[] [] [] [] [] [] [] []]; try discriminate Hd; reflexivity.
Qed.

Lemma parse_value_string f s :
  parse_value (S f) ("034" :: s) =
  match parse_chars s with
  | Some (str, r') => Some (Str str, r')
  | None => None
  end.
Proof. reflexivity. Qed.

Lemma parse_value_minus f s :
  parse_value (S f) ("-" :: s) =
  match parse_digits s with
  | Some (n, r') => Some (Num (Int (- Z.of_N n)), r')
  | None => None
  end.
Proof. reflexivity. Qed.

Lemma join_two sep p q parts :
  join sep (p :: q :: parts) = p ++ sep ++ join sep (q :: parts).
Proof. reflexivity. Qed.

Lemma elements_read_back l :
  Forall reads_back l -> l <> [] ->
  forall ind ind' fuel rest,
    (2 * length (join ("," :: newline ind) (map (print ind) l)) + 1 < fuel)%nat ->
    parse_elements fuel
      (join ("," :: newline ind) (map (print ind) l) ++ newline ind' ++ "]" :: rest)
    = Some (l, rest).
Proof.
  induction 1 as [ | v l Hv Hl IH ]; [ congruence | intros _ ].
  intros ind ind' fuel rest Hfuel.
  destruct fuel as [ | fuel ]; [ lia | ].
  rewrite parse_elements_S.
  destruct l as [ | v' l ].
  - cbn [map join] in *.
    rewrite Hv; [ | lia | reflexivity ].
    rewrite skip_ws_newline. reflexivity.
  - cbn [map] in *. rewrite join_two in *.
    rewrite !length_app in Hfuel. cbn [length] in Hfuel.
    rewrite <- !app_assoc.
    rewrite Hv; [ | lia | reflexivity ].
    cbn [app skip_ws is_ws].
    rewrite <- ?app_assoc, parse_elements_newline.
    rewrite (IH ltac:(discriminate) ind ind' fuel rest); [ reflexivity | ].
    cbn [map]. lia.
Qed.

Lemma members_read_back l :
  Forall (fun kv => reads_back (snd kv)) l -> l <> [] ->
  forall ind ind' fuel rest,
    (2 * length (join ("," :: newline ind) (map (member_text ind) l)) + 1 < fuel)%nat ->
    parse_members fuel
      (join ("," :: newline ind) (map (member_text ind) l) ++ newline ind' ++ "}" :: rest)
    = Some (l, rest).
Proof.
  induction 1 as [ | [k v] l Hv Hl IH ]; [ congruence | intros _ ].
  intros ind ind' fuel rest Hfuel.
  destruct fuel as [ | fuel ]; [ lia | ].
  rewrite parse_members_S.
  assert (Hstep : forall tail, no_digit tail ->
            (2 * length (member_text ind (k, v)) < S fuel)%nat ->
            parse_members (S fuel) (member_text ind (k, v) ++ tail) =
            match skip_ws tail with
            | "," :: r4 =>
                match parse_members fuel r4 with
                | Some (l, r5) => Some ((k, v) :: l, r5)
                | None => None
                end
            | "}" :: r4 => Some ([(k, v)], r4)
            | _ => None
            end).
  { intros tail Htail Hlen. rewrite parse_members_S.
    unfold member_text, quote in Hlen |- *. cbn [fst snd] in Hlen |- *.
    cbn [app skip_ws is_ws].
    rewrite <- !app_assoc. cbn [app]. rewrite parse_chars_quoted.
    cbn [app skip_ws is_ws].
    rewrite <- parse_value_skip. cbn [skip_ws is_ws]. rewrite parse_value_skip.
    simpl in Hv. rewrite Hv; [ reflexivity | | exact Htail ].
    cbn [length] in Hlen. rewrite !length_app in Hlen. cbn [length] in Hlen. lia. }
  rewrite <- parse_members_S.
  destruct l as [ | kv' l ].
  - cbn [map join] in *.
    rewrite Hstep; [ | reflexivity | lia ].
    rewrite skip_ws_newline. reflexivity.
  - cbn [map] in *. rewrite join_two in *.
    rewrite !length_app in Hfuel. cbn [length] in Hfuel.
    rewrite <- !app_assoc.
    rewrite Hstep; [ | reflexivity | lia ].
    cbn [app skip_ws is_ws].
    rewrite <- ?app_assoc, parse_members_newline.
    rewrite (IH ltac:(discriminate) ind ind' fuel rest); [ reflexivity | ].
    cbn [map]. lia.
Qed.


Lemma set_key_fresh k v l :
  k ∉ map fst l -> set_key k v l = l ++ [(k, v)].
Proof.
  induction l as [ | [k' v'] l IH ]; intros Hk; [ reflexivity | ].
  cbn [map fst] in Hk. apply not_elem_of_cons in Hk as [Hne Hk].
  cbn [set_key]. rewrite bool_decide_eq_false_2 by congruence.
  rewrite IH by exact Hk. reflexivity.
Qed.

Lemma fold_set_key l : forall acc,
  NoDup (map fst (acc ++ l)) ->
  fold_left (fun o kv => set_key (fst kv) (snd kv) o) l acc = acc ++ l.
Proof.
  induction l as [ | [k v] l IH ]; intros acc Hnd; cbn [fold_left].
  - rewrite app_nil_r. reflexivity.
  - cbn [fst snd]. rewrite set_key_fresh.
    + rewrite IH; rewrite <- app_assoc; [ reflexivity | exact Hnd ].
    + rewrite map_app in Hnd. apply NoDup_app in Hnd as (_ & Hdis & _).
      intros Hin. apply (Hdis k Hin). cbn [map fst]. left.
Qed.

Lemma object_of_nodup l : NoDup (map fst l) -> object_of l = l.
Proof. intros Hnd. unfold object_of. rewrite fold_set_key; [ reflexivity | exact Hnd ]. Qed.

Lemma join_head sep p ps : exists tail, join sep (p :: ps) = p ++ tail.
Proof.
  destruct ps as [ | q ps ]; [ exists []; cbn; rewrite app_nil_r; reflexivity | ].
  rewrite join_two. eauto.
Qed.

Lemma skip_ws_printed ind v tail c :
  starts_value c = false ->
  forall r', skip_ws (print ind v ++ tail) <> c :: r'.
Proof.
  intros Hc r'. destruct (print_starts ind v) as (c' & s & -> & Hc').
  cbn [app]. rewrite skip_ws_starts by exact Hc'. intros [= -> _]. congruence.
Qed.

Lemma Forall_modus_ponens {A} (P Q : A -> Prop) l :
  Forall (fun x => P x -> Q x) l -> Forall P l -> Forall Q l.
Proof. induction 1; inversion 1; subst; constructor; auto. Qed.

Theorem read_back v : well_formed v -> reads_back v.
Proof.
  induction v as [ | b | n | s | l IH | l IH ] using value_nested_ind;
    intros Hwf ind fuel rest Hfuel Hrest;
    (destruct fuel as [ | fuel ]; [ lia | ]).
  - reflexivity.
  - destruct b; reflexivity.
  - inversion Hwf as [ | | z Hz | | | ]; subst. clear Hwf.
    destruct z as [ | p | p ]; cbn [print print_Z].
    + cbn [app]. rewrite parse_value_digits by (cbn; eauto).
      change ("0" :: rest) with (print_uint (D0 Nil) ++ rest).
      unfold parse_digits. rewrite scan_digits_print by exact Hrest. reflexivity.
    + destruct (print_uint_head p) as (c & s & Heq & Hc).
      rewrite Heq. cbn [app]. rewrite parse_value_digits by exact Hc.
      change (c :: s ++ rest) with ((c :: s) ++ rest). rewrite <- Heq.
      rewrite parse_digits_print by exact Hrest. reflexivity.
    + cbn [app]. rewrite parse_value_minus.
      rewrite parse_digits_print by exact Hrest. reflexivity.
  - cbn [print]. unfold quote. cbn [app]. rewrite parse_value_string.
    rewrite <- app_assoc. cbn [app]. rewrite parse_chars_quoted. reflexivity.
  - inversion Hwf as [ | | | | l' Hl | ]; subst.
    assert (Hread : Forall reads_back l).
    { exact (Forall_modus_ponens _ _ _ IH Hl). }
    destruct l as [ | v l ]; [ reflexivity | ].
    cbn [print] in Hfuel |- *. cbn [app].
    cbn [length] in Hfuel. rewrite !length_app in Hfuel.
    rewrite <- ?app_assoc. cbn [app].
    rewrite parse_value_array.
    + rewrite parse_elements_newline.
      rewrite elements_read_back; [ reflexivity | exact Hread | discriminate | ].
      lia.
    + intros r'. rewrite skip_ws_newline. cbn [map].
      destruct (join_head ("," :: newline (ind + 2)) (print (ind + 2) v)
                  (map (print (ind + 2)) l)) as [tail ->].
      rewrite <- app_assoc. apply skip_ws_printed. reflexivity.
  - inversion Hwf as [ | | | | | l' Hnd Hl ]; subst.
    assert (Hread : Forall (fun kv => reads_back (snd kv)) l).
    { exact (Forall_modus_ponens _ _ _ IH Hl). }
    destruct l as [ | kv l ]; [ reflexivity | ].
    cbn [print] in Hfuel |- *. cbn [app].
    change (fun kv : string * value =>
              quote (fst kv) ++ ":" :: " " :: print (ind + 2) (snd kv))
      with (member_text (ind + 2)) in Hfuel |- *.
    cbn [length] in Hfuel. rewrite !length_app in Hfuel.
    rewrite <- ?app_assoc. cbn [app].
    rewrite parse_value_object.
    + rewrite parse_members_newline.
      rewrite members_read_back; [ | exact Hread | discriminate | ].
      * rewrite object_of_nodup by exact Hnd. reflexivity.
      * lia.
    + intros r'. rewrite skip_ws_newline. cbn [map].
      destruct (join_head ("," :: newline (ind + 2)) (member_text (ind + 2) kv)
                  (map (member_text (ind + 2)) l)) as [tail ->].
      unfold member_text at 1, quote. cbn [app]. discriminate.
Qed.

Theorem JSON_parse_stringify v : well_formed v -> JSON_parse (JSON_stringify v) = Some v.
Proof.
  intros Hwf. unfold JSON_parse, JSON_stringify.
  rewrite list_ascii_of_string_of_list_ascii.
  rewrite <- (app_nil_r (print 0 v)) at 2.
  rewrite (read_back v Hwf 0%nat); [ reflexivity | lia | exact I ].
Qed.

End JsonText.

Ltac distinct_keys := apply (bool_decide_unpack _); vm_compute; exact I.

(** Splits [well_formed (Obj ...)] of a record into one goal per member
    that is not a string or a number. *)
Ltac record_wf :=
  constructor;
  [ distinct_keys
  | repeat first [ apply Forall_nil_2 | apply Forall_cons_2; [ cbn [snd] | ] ];
    try first [ apply wf_Str | apply wf_Num ] ].

(** ** The runtime image of a typed store is well formed *)

Lemma Arr_map_wf {A} (f : A -> value) l :
  (forall a, well_formed (f a)) -> well_formed (Arr (map f l)).
Proof. intros H. constructor. apply Forall_map, Forall_true. exact H. Qed.

Lemma Arr_map_wf_where {A} (P : A -> Prop) (f : A -> value) l :
  Forall P l -> (forall a, P a -> well_formed (f a)) -> well_formed (Arr (map f l)).
Proof.
  intros Hl H. constructor. apply Forall_map.
  induction Hl; constructor; auto.
Qed.

Lemma valueOfField_wf f : finite_field f -> well_formed (valueOfField f).
Proof.
  destruct f as [i n t [x| |nx] [y| |ny] [[fs| |nfs]|] [ff|] [c|] [d|]];
    intros (Hx & Hy & Hfs); cbn in Hx, Hy, Hfs; try contradiction;
    unfold valueOfField, optional;
    cbn [app Field.fontSize Field.fontFamily Field.color Field.defaultValue];
    record_wf.
Qed.

Lemma valueOfCertificate_wf c : well_formed (valueOfCertificate c).
Proof. unfold valueOfCertificate. record_wf. Qed.

Lemma valueOfCustomFields_wf m : well_formed (valueOfCustomFields m).
Proof.
  constructor.
  - rewrite map_map. cbn [fst]. apply NoDup_fst_map_to_list.
  - apply Forall_map, Forall_true. intros kv. constructor.
Qed.

Lemma valueOfTemplate_wf t :
  Forall finite_field (Template.fields t) -> well_formed (valueOfTemplate t).
Proof.
  intros Hfields. unfold valueOfTemplate. record_wf.
  apply (Arr_map_wf_where finite_field); [ exact Hfields | apply valueOfField_wf ].
Qed.

Lemma valueOfRecipient_wf r : well_formed (valueOfRecipient r).
Proof.
  destruct r as [i n [e|] [c|] [m|] d]; unfold valueOfRecipient, optional;
    cbn [app Recipient.email Recipient.course Recipient.customFields];
    record_wf; apply valueOfCustomFields_wf.
Qed.

Lemma valueOfCollection_wf c : well_formed (valueOfCollection c).
Proof.
  destruct c as [i n [d|] t cs ca]; unfold valueOfCollection, optional;
    cbn [app CertificateCollection.description];
    record_wf; apply Arr_map_wf, valueOfCertificate_wf.
Qed.

Lemma snapshot_wf state :
  finite_numbers state ->
  well_formed (Obj [("templates", raw_templates (toRaw state));
                    ("recipients", raw_recipients (toRaw state));
                    ("certificates", raw_certificates (toRaw state));
                    ("collections", raw_collections (toRaw state))]).
Proof.
  intros Hfinite. record_wf.
  - apply (Arr_map_wf_where _ _ _ Hfinite). apply valueOfTemplate_wf.
  - apply Arr_map_wf, valueOfRecipient_wf.
  - apply Arr_map_wf, valueOfCertificate_wf.
  - apply Arr_map_wf, valueOfCollection_wf.
Qed.

(** ** The runtime image tells typed stores apart *)

Lemma map_injective {A B} (f : A -> B) :
  (forall a a', f a = f a' -> a = a') ->
  forall l l', map f l = map f l' -> l = l'.
Proof.
  intros Hf l. induction l as [ | a l IH ]; intros [ | a' l' ] H;
    try discriminate H; [ reflexivity | ].
  cbn [map] in H. injection H as Ha Hl. f_equal; auto.
Qed.

Lemma valueOfField_inj f f' : valueOfField f = valueOfField f' -> f = f'.
Proof.
  destruct f as [i n t x y [fs|] [ff|] [c|] [d|]];
    destruct f' as [i' n' t' x' y' [fs'|] [ff'|] [c'|] [d'|]];
    unfold valueOfField, optional; cbn; intros H; simplify_eq; reflexivity.
Qed.

Lemma valueOfTemplate_inj t t' : valueOfTemplate t = valueOfTemplate t' -> t = t'.
Proof.
  destruct t as [i n u fs]; destruct t' as [i' n' u' fs'].
  unfold valueOfTemplate; cbn. intros H. simplify_eq.
  f_equal. apply (map_injective _ valueOfField_inj). assumption.
Qed.

Lemma customFields_entries_inj (m m' : gmap string string) :
  map (fun kv : string * string => (fst kv, Str (snd kv))) (map_to_list m) =
  map (fun kv : string * string => (fst kv, Str (snd kv))) (map_to_list m') ->
  m = m'.
Proof.
  intros H. apply map_to_list_inj.
  rewrite (map_injective (fun kv : string * string => (fst kv, Str (snd kv)))
             ltac:(intros [k v] [k' v'] [= -> ->]; reflexivity) _ _ H).
  reflexivity.
Qed.

Lemma valueOfRecipient_inj r r' : valueOfRecipient r = valueOfRecipient r' -> r = r'.
Proof.
  destruct r as [i n [e|] [c|] [m|] d]; destruct r' as [i' n' [e'|] [c'|] [m'|] d'];
    unfold valueOfRecipient, optional;
    cbn [app Recipient.id Recipient.name Recipient.email Recipient.course
         Recipient.customFields Recipient.issueDate];
    intros H; injection H as H; simplify_list_eq;
    repeat match goal with
           | H : map _ (map_to_list _) = map _ (map_to_list _) |- _ =>
               apply customFields_entries_inj in H; subst
           end;
    reflexivity.
Qed.

Lemma valueOfCertificate_inj c c' :
  valueOfCertificate c = valueOfCertificate c' -> c = c'.
Proof.
  destruct c, c'. unfold valueOfCertificate; cbn. intros H. simplify_eq. reflexivity.
Qed.

Lemma valueOfCollection_inj c c' :
  valueOfCollection c = valueOfCollection c' -> c = c'.
Proof.
  destruct c as [i n [d|] t cs ca]; destruct c' as [i' n' [d'|] t' cs' ca'];
    unfold valueOfCollection, optional; cbn; intros H; simplify_eq;
    f_equal; apply (map_injective _ valueOfCertificate_inj); assumption.
Qed.

Lemma toRaw_inj state state' : toRaw state = toRaw state' -> state = state'.
Proof.
  destruct state as [ts rs cs ks cur]; destruct state' as [ts' rs' cs' ks' cur'].
  unfold toRaw. cbn. intros H. injection H as Hts Hrs Hcs Hks Hcur.
  f_equal.
  - apply (map_injective _ valueOfTemplate_inj). assumption.
  - apply (map_injective _ valueOfRecipient_inj). assumption.
  - apply (map_injective _ valueOfCertificate_inj). assumption.
  - apply (map_injective _ valueOfCollection_inj). assumption.
  - destruct cur, cur'; congruence.
Qed.

(** ** Export followed by import *)

(** Reading the four keys of an exported snapshot. *)
Lemma member_snapshot a b c d :
  let data := Obj [("templates", a); ("recipients", b);
                   ("certificates", c); ("collections", d)] in
  member "templates" data = Some (Some a) /\
  member "recipients" data = Some (Some b) /\
  member "certificates" data = Some (Some c) /\
  member "collections" data = Some (Some d).
Proof. repeat split; reflexivity. Qed.




(** ** Import of malformed and partial documents *)




(** ** Updates *)

(** [l.map(x => x.id === id ? f(x) : x)], entry by entry. *)
Section MapById.
Context {A : Type} (ident : A -> string) (id : string) (f : A -> A).

Lemma map_by_id_lookup l i x :
  l !! i = Some x ->
  map (fun x => if bool_decide (ident x = id) then f x else x) l !! i
  = Some (if bool_decide (ident x = id) then f x else x).
Proof.
  revert i. induction l as [ | y l IH ]; intros [ | i ] Hi; try discriminate Hi.
  - injection Hi as ->. reflexivity.
  - apply IH. exact Hi.
Qed.

Lemma map_by_id_absent l :
  id ∉ map ident l ->
  map (fun x => if bool_decide (ident x = id) then f x else x) l = l.
Proof.
  induction l as [ | x l IH ]; intros Hid; [ reflexivity | ].
  cbn [map] in *. apply not_elem_of_cons in Hid as [Hne Hid].
  rewrite bool_decide_eq_false_2 by congruence. rewrite IH by exact Hid.
  reflexivity.
Qed.
End MapById.

(** C3.  [updateTemplate] and [updateRecipient] put the payload with the
    given id in the place of every entry with that id; [updateCertificate]
    keeps, member by member, the value of the update when it has one and
    the old value otherwise; entries with another id stay, and an id that
    is not in the container leaves the store as it was. *)
Theorem update_replaces_or_merges (id : string) (state : Store) :
  (forall payload i t, templates state !! i = Some t ->
     templates (updateTemplate id payload state) !! i =
       Some (if bool_decide (Template.id t = id)
             then Template.mk id (Template.p_name payload)
                    (Template.p_imageUrl payload) (Template.p_fields payload)
             else t)) /\
  (forall payload i r, recipients state !! i = Some r ->
     recipients (updateRecipient id payload state) !! i =
       Some (if bool_decide (Recipient.id r = id)
             then Recipient.mk id (Recipient.p_name payload)
                    (Recipient.p_email payload) (Recipient.p_course payload)
                    (Recipient.p_customFields payload)
                    (Recipient.p_issueDate payload)
             else r)) /\
  (forall updates i c, certificates state !! i = Some c ->
     certificates (updateCertificate id updates state) !! i =
       Some (if bool_decide (Certificate.id c = id)
             then Certificate.mk
                    (default (Certificate.id c) (Certificate.u_id updates))
                    (default (Certificate.recipientId c)
                             (Certificate.u_recipientId updates))
                    (default (Certificate.templateId c)
                             (Certificate.u_templateId updates))
                    (default (Certificate.qrCodeUrl c)
                             (Certificate.u_qrCodeUrl updates))
                    (default (Certificate.issueDate c)
                             (Certificate.u_issueDate updates))
                    (default (Certificate.verificationUrl c)
                             (Certificate.u_verificationUrl updates))
                    (default (Certificate.status c) (Certificate.u_status updates))
             else c)) /\
  (forall payload, id ∉ map Template.id (templates state) ->
     updateTemplate id payload state = state) /\
  (forall payload, id ∉ map Recipient.id (recipients state) ->
     updateRecipient id payload state = state) /\
  (forall updates, id ∉ map Certificate.id (certificates state) ->
     updateCertificate id updates state = state).
Proof.
  destruct state as [ts rs cs ks cur]. cbn [templates recipients certificates].
  repeat split.
  - intros payload i t Hi.
    exact (map_by_id_lookup Template.id id _ ts i t Hi).
  - intros payload i r Hi.
    exact (map_by_id_lookup Recipient.id id _ rs i r Hi).
  - intros updates i c Hi.
    exact (map_by_id_lookup Certificate.id id _ cs i c Hi).
  - intros payload Hid. unfold updateTemplate. cbn.
    rewrite map_by_id_absent by exact Hid. reflexivity.
  - intros payload Hid. unfold updateRecipient. cbn.
    rewrite map_by_id_absent by exact Hid. reflexivity.
  - intros updates Hid. unfold updateCertificate. cbn.
    rewrite map_by_id_absent by exact Hid. reflexivity.
Qed.

Lemma update_replaces_or_merges_witness :
  templates (updateTemplate "t1" example_payload example_store) !! 0%nat =
    Some (Template.mk "t1" "Renamed" "/assets/new.jpg" []) /\
  updateTemplate "t9" example_payload example_store = example_store.
Proof.
  split.
  - apply (proj1 (update_replaces_or_merges "t1" example_store) example_payload
             0%nat example_template).
    reflexivity.
  - apply (proj1 (proj2 (proj2 (proj2 (update_replaces_or_merges "t9" example_store))))).
    vm_compute. intros H.
    repeat (apply elem_of_cons in H as [ H | H ]; [ discriminate H | ]).
    apply elem_of_nil in H. exact H.
Defined.

(** ** Deletions *)

(** C4.  [deleteRecipient] removes the certificates of that recipient and
    no other certificate, the recipients with that id and no other
    recipient, keeps the order of what stays, and leaves templates,
    collections and the current template alone. *)
Theorem deleteRecipient_cascade (id : string) (state : Store) :
  let state' := deleteRecipient id state in
  (forall c, c ∈ certificates state' <->
             c ∈ certificates state /\ Certificate.recipientId c <> id) /\
  (forall r, r ∈ recipients state' <->
             r ∈ recipients state /\ Recipient.id r <> id) /\
  certificates state' `sublist_of` certificates state /\
  recipients state' `sublist_of` recipients state /\
  templates state' = templates state /\
  collections state' = collections state /\
  currentTemplateId state' = currentTemplateId state.
Proof.
  cbn. split; [ | split; [ | split; [ | split ] ] ].
  - intros c. rewrite list_elem_of_filter. tauto.
  - intros r. rewrite list_elem_of_filter. tauto.
  - apply sublist_filter.
  - apply sublist_filter.
  - repeat split.
Qed.

(** The first entry with another id heads what a filter by id leaves. *)
Lemma find_other_head_filter {A} (ident : A -> string) (id : string) (l : list A) :
  List.find (fun x => negb (bool_decide (ident x = id))) l
  = head (filter (fun x => ident x <> id) l).
Proof.
  induction l as [ | x l IH ]; [ reflexivity | ].
  cbn [List.find]. rewrite filter_cons.
  destruct (decide (ident x <> id)) as [ Hx | Hx ].
  - rewrite bool_decide_eq_false_2 by exact Hx. reflexivity.
  - rewrite bool_decide_eq_true_2 by (destruct (decide (ident x = id)); tauto).
    exact IH.
Qed.

(** C10, as amended.  [deleteTemplate] removes the templates with that id
    and no other, in order.  When the current template is the deleted one
    it becomes the id of the first remaining template if that id is a
    non-empty string, and null if no template remains or that id is the
    empty string; otherwise it is unchanged.  Recipients, certificates and
    collections are unchanged. *)
Theorem deleteTemplate_current (id : string) (state : Store) :
  let state' := deleteTemplate id state in
  (forall t, t ∈ templates state' <->
             t ∈ templates state /\ Template.id t <> id) /\
  templates state' `sublist_of` templates state /\
  (currentTemplateId state = Some id ->
     currentTemplateId state' =
       str_or_null (Template.id <$> head (templates state'))) /\
  (currentTemplateId state <> Some id ->
     currentTemplateId state' = currentTemplateId state) /\
  recipients state' = recipients state /\
  certificates state' = certificates state /\
  collections state' = collections state.
Proof.
  cbn. split; [ | split; [ | split; [ | split ] ] ]; [ | | | | repeat split ].
  - intros t. rewrite list_elem_of_filter. tauto.
  - apply sublist_filter.
  - intros Hcur. rewrite bool_decide_eq_true_2 by exact Hcur.
    rewrite find_other_head_filter. reflexivity.
  - intros Hcur. rewrite bool_decide_eq_false_2 by exact Hcur. reflexivity.
Qed.

Lemma deleteTemplate_current_witness :
  currentTemplateId (deleteTemplate "t1" example_store) = None /\
  currentTemplateId (deleteTemplate "t2" example_store) = Some "t1".
Proof.
  split.
  - apply (proj1 (proj2 (proj2 (deleteTemplate_current "t1" example_store)))).
    reflexivity.
  - apply (proj1 (proj2 (proj2 (proj2 (deleteTemplate_current "t2" example_store))))).
    discriminate.
Defined.

(** C10, as stated, fails: the deleted template was current, a template
    remains, and the current template becomes null instead of the id of
    the remaining one. *)
Lemma deleteTemplate_current_counterexample :
  let state := store_with_two_templates in
  let state' := deleteTemplate "t1" state in
  currentTemplateId state = Some "t1" /\
  (Template.id <$> head (templates state')) = Some "" /\
  currentTemplateId state' = None.
Proof. vm_compute. repeat split. Qed.

(** ** Collections *)

Lemma filter_none {A} (p : A -> bool) l :
  (forall x, x ∈ l -> p x = false) -> List.filter p l = [].
Proof.
  induction l as [ | x l IH ]; intros H; [ reflexivity | ].
  cbn [List.filter]. rewrite (H x) by left.
  apply IH. intros y Hy. apply H. right. exact Hy.
Qed.

Lemma some_true {A} (p : A -> bool) l x : x ∈ l -> p x = true -> some p l = true.
Proof.
  intros Hx Hp. unfold some. apply existsb_exists. exists x.
  split; [ apply list_elem_of_In; exact Hx | exact Hp ].
Qed.

Lemma some_app {A} (p : A -> bool) l1 l2 :
  some p (l1 ++ l2) = some p l1 || some p l2.
Proof. apply existsb_app. Qed.

(** Adding to the members what is not yet among them, a second time, adds
    nothing. *)
Lemma add_missing_twice (members toAdd : list Certificate.t) :
  let missing ms :=
    List.filter
      (fun cert => negb (some (fun existing =>
                                 bool_decide (Certificate.id existing = Certificate.id cert))
                              ms)) toAdd in
  missing (members ++ missing members) = [].
Proof.
  cbn zeta. apply filter_none. intros cert Hcert.
  apply negb_false_iff. rewrite some_app.
  destruct (some _ members) eqn:Hold; [ reflexivity | ].
  cbn [orb]. apply some_true with cert.
  - apply list_elem_of_In, filter_In. split.
    + apply list_elem_of_In. exact Hcert.
    + rewrite Hold. reflexivity.
  - apply bool_decide_eq_true_2. reflexivity.
Qed.

(** C6.  Calling [addCertificatesToCollection] twice with the same
    arguments gives the same store, hence the same members in every
    collection, as calling it once; what a call adds to a collection are
    certificates of the store whose id is among the requested ones and is
    not the id of a member the collection already has. *)
Theorem addCertificatesToCollection_idempotent
    (collectionId : string) (certificateIds : list string) (state : Store) :
  let once := addCertificatesToCollection collectionId certificateIds state in
  let twice := addCertificatesToCollection collectionId certificateIds once in
  twice = once /\
  (forall i collection, collections state !! i = Some collection ->
     CertificateCollection.id collection = collectionId ->
     exists added,
       collections once !! i =
         Some (CertificateCollection.withCertificates collection
                 (CertificateCollection.certificates collection ++ added)) /\
       forall cert, cert ∈ added ->
         cert ∈ certificates state /\
         Certificate.id cert ∈ certificateIds /\
         Certificate.id cert ∉
           map Certificate.id (CertificateCollection.certificates collection)).
Proof.
  cbn zeta. split.
  - unfold addCertificatesToCollection.
    cbn [templates recipients certificates collections currentTemplateId].
    f_equal. rewrite map_map. apply map_ext. intros collection.
    destruct (bool_decide (CertificateCollection.id collection = collectionId)) eqn:Hid;
      cbn [CertificateCollection.withCertificates CertificateCollection.id
           CertificateCollection.certificates]; rewrite Hid; [ | reflexivity ].
    unfold CertificateCollection.withCertificates.
    cbn [CertificateCollection.id CertificateCollection.name
         CertificateCollection.description CertificateCollection.templateId
         CertificateCollection.certificates CertificateCollection.createdAt].
    f_equal.
    rewrite (add_missing_twice (CertificateCollection.certificates collection)).
    apply app_nil_r.
  - intros i collection Hi Hid.
    eexists. split.
    + unfold addCertificatesToCollection. cbn [collections].
      rewrite (map_by_id_lookup CertificateCollection.id collectionId _ _ i collection Hi).
      rewrite bool_decide_eq_true_2 by exact Hid. reflexivity.
    + intros cert Hcert.
      apply list_elem_of_In, filter_In in Hcert as [Hcert Hnew].
      apply filter_In in Hcert as [Hcert Hreq].
      split; [ apply list_elem_of_In; exact Hcert | split ].
      * unfold includes, some in Hreq. apply existsb_exists in Hreq as (x & Hx & Heq).
        apply bool_decide_eq_true in Heq. subst x. apply list_elem_of_In. exact Hx.
      * intros Hin. apply negb_true_iff in Hnew.
        apply list_elem_of_In, in_map_iff in Hin as (existing & Heq & Hex).
        rewrite (some_true _ _ existing) in Hnew; [ discriminate | | ].
        -- apply list_elem_of_In. exact Hex.
        -- apply bool_decide_eq_true_2. exact Heq.
Qed.

Lemma addCertificatesToCollection_idempotent_witness :
  exists added,
    collections (addCertificatesToCollection "k1" ["c1"; "c3"] store_with_collection)
      !! 0%nat =
    Some (CertificateCollection.mk "k1" "Batch" None "t1"
            ([example_certificate "c1" "r1"] ++ added) "2025-01-02T00:00:00.000Z").
Proof.
  destruct (proj2 (addCertificatesToCollection_idempotent "k1" ["c1"; "c3"]
                     store_with_collection)
              0%nat
              (CertificateCollection.mk "k1" "Batch" None "t1"
                 [example_certificate "c1" "r1"] "2025-01-02T00:00:00.000Z")
              eq_refl eq_refl) as (added & Hadded & _).
  exists added. exact Hadded.
Defined.

(** ** Issuance: the local effect *)

(** Settling never writes to the store. *)
Lemma keeps_ret {A} (a : A) : keeps_store (ret a).
Proof. intros w. reflexivity. Qed.

Lemma keeps_bind {A B} (m : Action A) (k : A -> Action B) :
  keeps_store m -> (forall a, keeps_store (k a)) -> keeps_store (bind m k).
Proof.
  intros Hm Hk w. unfold bind. specialize (Hm w).
  destruct (m w) as [a w1]. rewrite Hk. exact Hm.
Qed.

Lemma keeps_emit e : keeps_store (emit e).
Proof. intros w. reflexivity. Qed.

Lemma keeps_request {A} e (answer : list Event -> A) : keeps_store (request e answer).
Proof. intros w. reflexivity. Qed.

Lemma keeps_now env : keeps_store (now env).
Proof. intros w. reflexivity. Qed.

Ltac keeps :=
  repeat first
    [ apply keeps_ret | apply keeps_emit | apply keeps_request | apply keeps_now
    | apply keeps_bind; [ | intros ? ]
    | match goal with
      | |- keeps_store (if ?b then _ else _) => destruct b
      | |- keeps_store (match ?o with Some _ => _ | None => _ end) => destruct o
      end ].

Lemma keeps_settleOne remote id db : keeps_store (settleOne remote id db).
Proof. unfold settleOne. keeps. Qed.

Lemma keeps_reportBulk counts : keeps_store (reportBulk counts).
Proof. unfold reportBulk. keeps. Qed.

Lemma keeps_processCertificate env remote rs t tid total counts cert :
  keeps_store (processCertificate env remote rs t tid total counts cert).
Proof. unfold processCertificate. keeps. Qed.

Lemma keeps_processBatch process counts batch :
  (forall k c, keeps_store (process k c)) ->
  keeps_store (processBatch process counts batch).
Proof.
  intros Hp. revert counts.
  induction batch as [ | cert batch IH ]; intros counts; cbn [processBatch].
  - apply keeps_ret.
  - apply keeps_bind; [ apply Hp | intros k; apply IH ].
Qed.

Lemma keeps_batchLoop fuel process certs i counts :
  (forall k c, keeps_store (process k c)) ->
  keeps_store (batchLoop fuel process certs i counts).
Proof.
  intros Hp. revert i counts.
  induction fuel as [ | fuel IH ]; intros i counts; cbn [batchLoop];
    (destruct (bool_decide _); [ | apply keeps_ret ]).
  - apply keeps_ret.
  - apply keeps_bind; [ apply keeps_processBatch, Hp | intros k; apply IH ].
Qed.

Lemma keeps_settle env remote task : keeps_store (settle env remote task).
Proof.
  destruct task as [ id db t r | certs rs t tid ]; cbn [settle].
  - apply keeps_bind; [ apply keeps_settleOne | intros _; apply keeps_ret ].
  - unfold settleBulk. apply keeps_bind.
    + apply keeps_batchLoop. intros k c. apply keeps_processCertificate.
    + intros [ counts | ]; [ | apply keeps_ret ].
      apply keeps_bind; [ apply keeps_reportBulk | intros _; apply keeps_ret ].
Qed.

Lemma keeps_settleAll env remote tasks : keeps_store (settleAll env remote tasks).
Proof.
  induction tasks as [ | task tasks IH ]; cbn [settleAll].
  - apply keeps_ret.
  - apply keeps_bind; [ apply keeps_settle | intros _; apply IH ].
Qed.

(** What [generateCertificate] returns and appends, whichever branch the
    lookup of the recipient and the template takes. *)
Lemma generateCertificate_appends env recipientId templateId w :
  let id := nanoid env (ids w) in
  let verificationUrl := baseUrl env +:+ "/verify/" +:+ id in
  fst (generateCertificate env recipientId templateId w) = id /\
  certificates (store (snd (generateCertificate env recipientId templateId w))) =
    certificates (store w) ++
    [Certificate.mk id recipientId templateId verificationUrl
                    (toISOString env (ticks w)) verificationUrl "published"].
Proof.
  unfold generateCertificate, bind, fresh, now, set, get, emit, spawn, ret.
  cbn [store ids ticks trace pending templates recipients certificates].
  destruct (List.find _ (recipients (store w))) as [ r | ];
    [ destruct (List.find _ (templates (store w))) as [ t | ] | ];
    cbn; split; reflexivity.
Qed.

(** C1.  [generateCertificate] returns the identifier it drew, and the
    store it leaves holds, as its newest certificate, one with that
    identifier and status published; settling the promise chains started
    so far, whatever the remote side answers, leaves that certificate in
    the store. *)
Theorem generateCertificate_local (env : Env) (recipientId templateId : string)
    (w : World) :
  let result := generateCertificate env recipientId templateId w in
  let id := fst result in
  let w' := snd result in
  id = nanoid env (ids w) /\
  (exists c, certificates (store w') = certificates (store w) ++ [c] /\
             Certificate.id c = id /\ Certificate.status c = "published" /\
             Certificate.recipientId c = recipientId /\
             Certificate.templateId c = templateId) /\
  (forall remote : Remote,
     let settled := snd (settleAll env remote (pending w') w') in
     exists c, c ∈ certificates (store settled) /\
               Certificate.id c = id /\ Certificate.status c = "published").
Proof.
  cbn zeta.
  destruct (generateCertificate_appends env recipientId templateId w) as [Hid Hcs].
  split; [ exact Hid | split ].
  - eexists. split; [ exact Hcs | ]. rewrite Hid. repeat split.
  - intros remote. rewrite keeps_settleAll. eexists. split.
    + rewrite Hcs. apply elem_of_app. right. left.
    + rewrite Hid. split; reflexivity.
Qed.

(** C8.  With verification origin [O], the certificate appended by
    [generateCertificate] has the verification URL [O/verify/id], where
    [id] is the identifier returned, and its QR payload is that same URL. *)
Theorem generateCertificate_verificationUrl (O : string)
    (nanoid : nat -> string) (toISOString : nat -> string)
    (recipientId templateId : string) (w : World) :
  let env := mkEnv (Some O) nanoid toISOString in
  let result := generateCertificate env recipientId templateId w in
  exists c, certificates (store (snd result)) = certificates (store w) ++ [c] /\
            Certificate.id c = fst result /\
            Certificate.verificationUrl c = O +:+ "/verify/" +:+ Certificate.id c /\
            Certificate.qrCodeUrl c = Certificate.verificationUrl c.
Proof.
  cbn zeta.
  destruct (generateCertificate_appends (mkEnv (Some O) nanoid toISOString)
              recipientId templateId w) as [Hid Hcs].
  eexists. split; [ exact Hcs | ]. rewrite Hid. repeat split.
Qed.

(** ** Bulk issuance *)

(** The batch loop leaves through its condition, never through its fuel. *)
Lemma batchLoop_completes process certs fuel i counts w :
  (length certs <= i + batchSize * fuel)%nat ->
  is_Some (fst (batchLoop fuel process certs i counts w)).
Proof.
  revert i counts w. induction fuel as [ | fuel IH ]; intros i counts w Hfuel;
    cbn [batchLoop]; destruct (decide (i < length certs)%nat) as [ Hlt | Hge ].
  - lia.
  - rewrite bool_decide_eq_false_2 by exact Hge. cbn. eauto.
  - rewrite bool_decide_eq_true_2 by exact Hlt. unfold bind.
    destruct (processBatch _ _ _ w) as [counts' w']. apply IH.
    unfold batchSize in *. lia.
  - rewrite bool_decide_eq_false_2 by exact Hge. cbn. eauto.
Qed.

Lemma settleBulk_completes env remote certs rs t tid w :
  fst (settleBulk env remote certs rs t tid w) = Some tt.
Proof.
  unfold settleBulk, bind.
  pose proof (batchLoop_completes
                (processCertificate env remote rs t tid (length certs))
                certs (length certs) 0 (mkCounts 0 0) w) as Hdone.
  destruct (batchLoop _ _ _ _ _ w) as [done w'].
  destruct Hdone as [counts Hcounts]; [ unfold batchSize; lia | ].
  cbn in Hcounts. subst done.
  destruct (reportBulk counts w') as [[] w'']. reflexivity.
Qed.

(** With seven certificates the loop takes three batches, of the first
    three, the next three and the last one. *)
Lemma batchLoop_seven process c1 c2 c3 c4 c5 c6 c7 counts w :
  batchLoop 7 process [c1; c2; c3; c4; c5; c6; c7] 0 counts w =
  (k1 <~ processBatch process counts [c1; c2; c3] ;;
   k2 <~ processBatch process k1 [c4; c5; c6] ;;
   k3 <~ processBatch process k2 [c7] ;;
   ret (Some k3)) w.
Proof.
  reflexivity.
Qed.



(** ** Upload with bounded retries *)

(** A successful attempt returns the public URL of the object. *)
Lemma attemptUpload_url net supabaseUrl fileName h publicUrl :
  fst (attemptUpload net supabaseUrl fileName fileName h) = inr publicUrl ->
  publicUrl =
    supabaseUrl +:+ "/storage/v1/object/public/" +:+ BUCKET_NAME +:+ "/" +:+ fileName.
Proof.
  unfold attemptUpload, bind, fetch, note, ret.
  destruct (net h POST _) as [ | r ]; [ discriminate | ].
  destruct (ok r); [ intros [= <-]; reflexivity | ].
  destruct (text r) as [ e | ]; [ | discriminate ].
  destruct (bool_decide (status r = 409)); [ | discriminate ].
  cbn [fst snd].
  destruct (net _ PUT _) as [ | u ]; [ discriminate | ].
  destruct (ok u); [ intros [= <-]; reflexivity | ].
  destruct (text u); discriminate.
Qed.

(** The loop, started at an attempt within bounds with fuel for the
    attempts that remain, ends with the public URL or with the terminal
    error of the last attempt. *)
Lemma retryLoop_result net supabaseUrl fileName fuel attempt h :
  (attempt <= MAX_RETRIES)%nat -> (MAX_RETRIES < attempt + fuel)%nat ->
  match fst (retryLoop fuel net supabaseUrl fileName fileName attempt h) with
  | Returned u =>
      u = supabaseUrl +:+ "/storage/v1/object/public/" +:+ BUCKET_NAME +:+ "/" +:+ fileName
  | ThrewAfterRetries n _ => n = MAX_RETRIES
  | ThrewUnexpected | OutOfFuel => False
  end.
Proof.
  revert attempt h. induction fuel as [ | fuel IH ]; intros attempt h Hle Hfuel;
    [ lia | ].
  cbn [retryLoop]. rewrite bool_decide_eq_true_2 by exact Hle.
  unfold bind at 1.
  destruct (attemptUpload net supabaseUrl fileName fileName h) as [[e | u] h1] eqn:E.
  - unfold bind at 1. unfold note at 1. cbv beta iota.
    destruct (decide (attempt = MAX_RETRIES)) as [ Heq | Hne ].
    + rewrite bool_decide_eq_true_2 by exact Heq. reflexivity.
    + rewrite bool_decide_eq_false_2 by exact Hne.
      unfold bind at 1. unfold sleep, note. cbv beta iota.
      apply IH; lia.
  - cbn [ret fst]. eapply attemptUpload_url. rewrite E. reflexivity.
Qed.



(** ** More of the store *)

(** *** Identifiers under updates *)

Lemma map_by_id_idents {A} (ident : A -> string) (id : string) (f : A -> A) l :
  (forall x, ident x = id -> ident (f x) = id) ->
  map ident (map (fun x => if bool_decide (ident x = id) then f x else x) l)
  = map ident l.
Proof.
  intros Hf. induction l as [ | x l IH ]; [ reflexivity | ].
  cbn [map]. rewrite IH. f_equal.
  destruct (decide (ident x = id)) as [ Hx | Hx ].
  - rewrite bool_decide_eq_true_2 by exact Hx. rewrite Hf by exact Hx. congruence.
  - rewrite bool_decide_eq_false_2 by exact Hx. reflexivity.
Qed.

(** X1.  Updates never change which identifiers a container holds, nor
    their order: [updateTemplate] and [updateRecipient] always, and
    [updateCertificate] and [updateCollection] whenever the update
    carries no id of its own. *)
Theorem update_keeps_identifiers (id : string) (state : Store) :
  (forall payload,
     map Template.id (templates (updateTemplate id payload state))
     = map Template.id (templates state)) /\
  (forall payload,
     map Recipient.id (recipients (updateRecipient id payload state))
     = map Recipient.id (recipients state)) /\
  (forall updates, Certificate.u_id updates = None ->
     map Certificate.id (certificates (updateCertificate id updates state))
     = map Certificate.id (certificates state)) /\
  (forall updates, k_id updates = None ->
     map CertificateCollection.id (collections (updateCollection id updates state))
     = map CertificateCollection.id (collections state)).
Proof.
  split; [ | split; [ | split ] ].
  - intros payload. apply map_by_id_idents. reflexivity.
  - intros payload. apply map_by_id_idents. reflexivity.
  - intros updates Hid. apply map_by_id_idents.
    intros c Hc. cbn. rewrite Hid. exact Hc.
  - intros updates Hid. apply map_by_id_idents.
    intros c Hc. cbn. rewrite Hid. exact Hc.
Qed.

Lemma update_keeps_identifiers_witness :
  map Certificate.id
    (certificates (updateCertificate "c1" revoke store_with_collection))
  = ["c1"; "c2"; "c3"].
Proof.
  apply (proj1 (proj2 (proj2 (update_keeps_identifiers "c1" store_with_collection)))
           revoke).
  reflexivity.
Defined.

(** X2.  Two updates of the same certificate compose into one: when the
    first carries no id, updating with [u1] and then with [u2] is
    updating once with [{ ...u1, ...u2 }]; and the empty update changes
    nothing. *)
Theorem updateCertificate_composes (id : string) (u1 u2 : Certificate.partial)
    (state : Store) :
  Certificate.u_id u1 = None ->
  updateCertificate id u2 (updateCertificate id u1 state)
  = updateCertificate id (spreadPartial u1 u2) state /\
  updateCertificate id (Certificate.mkPartial None None None None None None None) state
  = state.
Proof.
  intros Hid. destruct state as [ts rs cs ks cur]. unfold updateCertificate.
  cbn [templates recipients certificates collections currentTemplateId].
  split; f_equal.
  - rewrite map_map. apply map_ext. intros c.
    destruct (decide (Certificate.id c = id)) as [ Hc | Hc ].
    + rewrite (bool_decide_eq_true_2 _ Hc).
      rewrite bool_decide_eq_true_2 by (cbn; rewrite Hid; exact Hc).
      destruct c, u1, u2. cbn in *. subst.
      repeat match goal with
             | o : option string |- _ => destruct o
             end; reflexivity.
    + rewrite (bool_decide_eq_false_2 _ Hc).
      rewrite (bool_decide_eq_false_2 _ Hc). reflexivity.
  - rewrite <- (map_id cs) at 2. apply map_ext. intros c.
    destruct (bool_decide _); [ destruct c | ]; reflexivity.
Qed.

Lemma updateCertificate_composes_witness :
  updateCertificate "c1" reissue (updateCertificate "c1" revoke store_with_collection)
  = updateCertificate "c1" (spreadPartial revoke reissue) store_with_collection.
Proof.
  apply (proj1 (updateCertificate_composes "c1" revoke reissue store_with_collection
                  eq_refl)).
Defined.

(** *** The current template *)

(** X3.  [deleteTemplate] and [updateTemplate] keep the current template
    valid: if it named a template of the store before, it names one
    after, or is null. *)
Theorem current_template_stays_valid (id : string) (state : Store) :
  current_valid state ->
  current_valid (deleteTemplate id state) /\
  forall payload, current_valid (updateTemplate id payload state).
Proof.
  intros Hvalid. split.
  - intros c Hc. unfold deleteTemplate in *.
    cbn [templates currentTemplateId] in *.
    destruct (decide (currentTemplateId state = Some id)) as [ Hcur | Hcur ].
    + rewrite bool_decide_eq_true_2 in Hc by exact Hcur.
      rewrite find_other_head_filter in Hc.
      destruct (filter _ (templates state)) as [ | t ts ]; [ discriminate Hc | ].
      cbn in Hc. destruct (decide (Template.id t = "")); [ discriminate Hc | ].
      injection Hc as <-. cbn. left.
    + rewrite bool_decide_eq_false_2 in Hc by exact Hcur.
      specialize (Hvalid c Hc).
      apply list_elem_of_In, in_map_iff in Hvalid as (t & Ht & Hin).
      apply list_elem_of_In, in_map_iff. exists t. split; [ exact Ht | ].
      apply list_elem_of_In, list_elem_of_filter. split.
      * intros Heq. apply Hcur. congruence.
      * apply list_elem_of_In. exact Hin.
  - intros payload c Hc. unfold updateTemplate in *.
    cbn [templates currentTemplateId] in *.
    rewrite map_by_id_idents by reflexivity.
    apply Hvalid. exact Hc.
Qed.

Lemma current_template_stays_valid_witness :
  currentTemplateId (deleteTemplate "t1" store_with_two_templates) = None /\
  current_valid (deleteTemplate "t1" store_with_two_templates).
Proof.
  split; [ reflexivity | ].
  apply (current_template_stays_valid "t1" store_with_two_templates).
  intros id [= <-]. vm_compute. left.
Defined.

(** *** Identifiers drawn by the issuing actions *)

Lemma find_by_id_Some {A} (ident : A -> string) (id : string) l x :
  List.find (fun y => bool_decide (ident y = id)) l = Some x ->
  ident x = id /\ x ∈ l.
Proof.
  intros H. apply find_some in H as [Hin Hid].
  apply bool_decide_eq_true in Hid. split; [ exact Hid | ].
  apply list_elem_of_In. exact Hin.
Qed.

Lemma find_by_id_None {A} (ident : A -> string) (id : string) l :
  List.find (fun y => bool_decide (ident y = id)) l = None <->
  id ∉ map ident l.
Proof.
  split.
  - intros H Hin. apply list_elem_of_In, in_map_iff in Hin as (x & Hx & Hin).
    pose proof (find_none _ _ H x Hin) as Hf. cbn in Hf.
    apply bool_decide_eq_false in Hf. contradiction.
  - intros H. destruct (List.find _ l) as [ x | ] eqn:E; [ | reflexivity ].
    apply find_by_id_Some in E as [Hid Hin]. destruct H.
    apply list_elem_of_In, in_map_iff. exists x. split; [ exact Hid | ].
    apply list_elem_of_In. exact Hin.
Qed.

(** X4.  Certificate identifiers stay distinct: if the store repeats no
    certificate id and the id that [nanoid] draws next is not one of
    them, the store repeats no certificate id after [generateCertificate]. *)
Theorem generateCertificate_keeps_ids_distinct (env : Env)
    (recipientId templateId : string) (w : World) :
  NoDup (map Certificate.id (certificates (store w))) ->
  nanoid env (ids w) ∉ map Certificate.id (certificates (store w)) ->
  NoDup (map Certificate.id
           (certificates (store (snd (generateCertificate env recipientId
                                        templateId w))))).
Proof.
  intros Hnd Hfresh.
  destruct (generateCertificate_appends env recipientId templateId w) as [_ Hcs].
  rewrite Hcs, map_app. cbn [map Certificate.id].
  apply NoDup_app. split; [ exact Hnd | split ].
  - intros id Hid Hin. apply list_elem_of_singleton in Hin. subst id. contradiction.
  - apply NoDup_singleton.
Qed.

Lemma generateCertificate_keeps_ids_distinct_witness :
  NoDup (map Certificate.id
           (certificates (store (snd (generateCertificate example_env "r1" "t1"
                                        example_collection_world))))) /\
  length (certificates (store example_collection_world)) = 3%nat.
Proof.
  split; [ | reflexivity ].
  apply (generateCertificate_keeps_ids_distinct example_env "r1" "t1"
           example_collection_world).
  - apply (bool_decide_unpack _). vm_compute. exact I.
  - apply (bool_decide_unpack _). vm_compute. exact I.
Defined.


Lemma map_is_fmap {A B} (f : A -> B) (l : list A) : map f l = f <$> l.
Proof. induction l as [ | x l IH ]; cbn; [ | rewrite IH ]; reflexivity. Qed.

(** [mapA] over callbacks that draw one id each, and over callbacks that
    draw one id and read the clock once each. *)
Lemma mapA_fresh {A B} (f : A -> Action B) (g : nat -> nat -> A -> B) :
  (forall a w, f a w = (g (ids w) 0%nat a,
                        mkWorld (store w) (S (ids w)) (ticks w) (trace w) (pending w))) ->
  (forall n i a, g (S n) i a = g n (S i) a) ->
  forall l w,
    mapA f l w = (imap (g (ids w)) l,
                  mkWorld (store w) (ids w + length l)%nat (ticks w) (trace w)
                          (pending w)).
Proof.
  intros Hf Hg l. induction l as [ | a l IH ]; intros w.
  - cbn. destruct w. cbn. rewrite Nat.add_0_r. reflexivity.
  - cbn [mapA]. unfold bind at 1. rewrite Hf. unfold bind at 1. rewrite IH.
    cbn [ret store ids ticks trace pending length imap].
    unfold ret. f_equal.
    + f_equal. apply imap_ext. intros i x _. cbn. apply Hg.
    + f_equal. lia.
Qed.

Lemma mapA_fresh_now {A B} (f : A -> Action B) (g : nat -> nat -> nat -> A -> B) :
  (forall a w, f a w = (g (ids w) (ticks w) 0%nat a,
                        mkWorld (store w) (S (ids w)) (S (ticks w)) (trace w)
                                (pending w))) ->
  (forall n k i a, g (S n) (S k) i a = g n k (S i) a) ->
  forall l w,
    mapA f l w = (imap (g (ids w) (ticks w)) l,
                  mkWorld (store w) (ids w + length l)%nat (ticks w + length l)%nat
                          (trace w) (pending w)).
Proof.
  intros Hf Hg l. induction l as [ | a l IH ]; intros w.
  - cbn. destruct w. cbn. rewrite !Nat.add_0_r. reflexivity.
  - cbn [mapA]. unfold bind at 1. rewrite Hf. unfold bind at 1. rewrite IH.
    cbn [ret store ids ticks trace pending length imap].
    unfold ret. f_equal.
    + f_equal. apply imap_ext. intros i x _. cbn. apply Hg.
    + f_equal; lia.
Qed.

Lemma bulkCertificate_shift env tid n k i rid :
  bulkCertificate env tid (S n) (S k) i rid = bulkCertificate env tid n k (S i) rid.
Proof.
  unfold bulkCertificate. cbn zeta.
  replace (S n + i)%nat with (n + S i)%nat by lia.
  replace (S k + i)%nat with (k + S i)%nat by lia. reflexivity.
Qed.

Lemma addRecipients_run env rs w :
  let new := imap (fun i p => Recipient.withId p (nanoid env (ids w + i))) rs in
  addRecipients env rs w =
  (map Recipient.id new,
   mkWorld (mkStore (templates (store w)) (recipients (store w) ++ new)
                    (certificates (store w)) (collections (store w))
                    (currentTemplateId (store w)))
           (ids w + length rs)%nat (ticks w) (trace w) (pending w)).
Proof.
  cbn zeta. unfold addRecipients. unfold bind at 1.
  rewrite (mapA_fresh _ (fun n i p => Recipient.withId p (nanoid env (n + i)))).
  - reflexivity.
  - intros a w0. unfold bind, fresh, ret. rewrite Nat.add_0_r. reflexivity.
  - intros n i a. replace (S n + i)%nat with (n + S i)%nat by lia. reflexivity.
Qed.

(** X6.  [addRecipients] draws one id per recipient, in order: it returns
    as many ids as it was given recipients, the [i]-th being the [i]-th
    draw, and appends the recipients under these ids after the ones the
    store had; nothing else changes. *)
Theorem addRecipients_in_order (env : Env) (rs : list Recipient.payload) (w : World) :
  let result := addRecipients env rs w in
  let new := imap (fun i p => Recipient.withId p (nanoid env (ids w + i))) rs in
  fst result = map Recipient.id new /\
  length (fst result) = length rs /\
  (forall i p, rs !! i = Some p -> fst result !! i = Some (nanoid env (ids w + i)%nat)) /\
  recipients (store (snd result)) = recipients (store w) ++ new /\
  templates (store (snd result)) = templates (store w) /\
  certificates (store (snd result)) = certificates (store w) /\
  collections (store (snd result)) = collections (store w) /\
  ids (snd result) = (ids w + length rs)%nat.
Proof.
  cbn zeta. rewrite addRecipients_run.
  cbn [fst snd store ids recipients templates certificates collections].
  split; [ reflexivity | split; [ | split; [ | repeat split ] ] ].
  - rewrite length_map, length_imap. reflexivity.
  - intros i p Hi.
    rewrite map_is_fmap, list_lookup_fmap, list_lookup_imap, Hi. reflexivity.
Qed.

(** *** Bulk issuance, for any number of recipients *)

Lemma generateBulkCertificates_run env recipientIds templateId w :
  let new := imap (bulkCertificate env templateId (ids w) (ticks w)) recipientIds in
  let n := length recipientIds in
  generateBulkCertificates env recipientIds templateId w =
  (map Certificate.id new,
   mkWorld (mkStore (templates (store w)) (recipients (store w))
                    (certificates (store w) ++ new) (collections (store w))
                    (currentTemplateId (store w)))
           (ids w + n)%nat (ticks w + n)%nat
           (trace w ++ [LogSavingBulk n])
           (pending w ++
            [PersistBulk new (recipients (store w))
               (List.find (fun t => bool_decide (Template.id t = templateId))
                          (templates (store w)))
               templateId])).
Proof.
  cbn zeta. unfold generateBulkCertificates. unfold bind at 1. unfold get at 1.
  unfold bind at 1.
  rewrite (mapA_fresh_now _ (bulkCertificate env templateId)).
  - unfold bind, set, emit, spawn, ret.
    cbn [fst snd store ids ticks trace pending templates recipients certificates
         collections currentTemplateId].
    rewrite length_imap. reflexivity.
  - intros a w0. unfold bind, fresh, now, ret, bulkCertificate.
    cbn [fst snd store ids ticks trace pending]. rewrite !Nat.add_0_r. reflexivity.
  - intros n k i a. apply bulkCertificate_shift.
Qed.


(** Running two batches one after the other is running their
    concatenation. *)
Lemma processBatch_app process counts b1 b2 w :
  processBatch process counts (b1 ++ b2) w =
  (k <~ processBatch process counts b1 ;; processBatch process k b2) w.
Proof.
  revert counts w. induction b1 as [ | c b1 IH ]; intros counts w.
  - reflexivity.
  - cbn [app processBatch]. unfold bind in *.
    destruct (process counts c w) as [k w1]. apply IH.
Qed.

Lemma batchLoop_from process certs fuel i counts w :
  (length certs <= i + batchSize * fuel)%nat ->
  batchLoop fuel process certs i counts w =
  (k <~ processBatch process counts (drop i certs) ;; ret (Some k)) w.
Proof.
  revert i counts w. induction fuel as [ | fuel IH ]; intros i counts w Hfuel;
    cbn [batchLoop]; destruct (decide (i < length certs)%nat) as [ Hlt | Hge ];
    try lia;
    try (rewrite bool_decide_eq_false_2 by exact Hge;
         rewrite drop_ge by lia; reflexivity).
  rewrite bool_decide_eq_true_2 by exact Hlt.
  rewrite <- (take_drop batchSize (drop i certs)).
  unfold slice. replace (i + batchSize - i)%nat with batchSize by lia.
  unfold bind. rewrite processBatch_app. unfold bind.
  destruct (processBatch process counts (take batchSize (drop i certs)) w) as [k w1].
  rewrite IH by (unfold batchSize in *; lia).
  rewrite drop_drop. reflexivity.
Qed.


Lemma count_inserts_app t1 t2 :
  count_inserts (t1 ++ t2) = (count_inserts t1 + count_inserts t2)%nat.
Proof.
  induction t1 as [ | e t1 IH ]; [ reflexivity | ].
  destruct e; cbn; rewrite IH; reflexivity.
Qed.

Lemma processCertificate_counts env remote rs t tid total counts cert w :
  let result := processCertificate env remote rs t tid total counts cert w in
  let k := fst result in
  let w' := snd result in
  (savedCount k + errorCount k + count_inserts (trace w) =
   savedCount counts + errorCount counts + count_inserts (trace w'))%nat /\
  (count_inserts (trace w') <= count_inserts (trace w) + 1)%nat.
Proof.
  cbn zeta. unfold processCertificate.
  destruct (List.find _ rs) as [ r | ]; [ destruct t as [ t | ] | ];
    unfold bind, now, emit, request, ret; cbn [fst snd trace store ids ticks pending];
    try (rewrite ?count_inserts_app; cbn; lia).
  destruct (insertCertificate remote _ _);
    [ destruct (generateAndUploadCertificatePDF remote _ _) as [ url | ];
      [ destruct (updateCertificatePDFUrl remote _ _ _) | ] | ];
    cbn; rewrite ?count_inserts_app; cbn; lia.
Qed.

Lemma processBatch_counts env remote rs t tid total batch counts w :
  let result :=
    processBatch (processCertificate env remote rs t tid total) counts batch w in
  let k := fst result in
  let w' := snd result in
  (savedCount k + errorCount k + count_inserts (trace w) =
   savedCount counts + errorCount counts + count_inserts (trace w'))%nat /\
  (count_inserts (trace w') <= count_inserts (trace w) + length batch)%nat.
Proof.
  cbn zeta. revert counts w.
  induction batch as [ | cert batch IH ]; intros counts w.
  - cbn. lia.
  - cbn [processBatch length]. unfold bind.
    pose proof (processCertificate_counts env remote rs t tid total counts cert w)
      as Hstep. cbn zeta in Hstep.
    destruct (processCertificate _ _ _ _ _ _ counts cert w) as [k1 w1].
    cbn [fst snd] in Hstep. specialize (IH k1 w1). lia.
Qed.


Lemma processBatch_without_template env remote rs tid total batch counts w :
  processBatch (processCertificate env remote rs None tid total) counts batch w =
  (counts,
   mkWorld (store w) (ids w) (ticks w)
           (trace w ++ map (fun c => ErrorMissing (Certificate.id c)) batch)
           (pending w)).
Proof.
  revert w. induction batch as [ | cert batch IH ]; intros w.
  - cbn. rewrite app_nil_r. destruct w; reflexivity.
  - cbn [processBatch map]. unfold bind.
    assert (Hstep : processCertificate env remote rs None tid total counts cert w =
                    (counts, snd (emit (ErrorMissing (Certificate.id cert)) w))).
    { unfold processCertificate. destruct (List.find _ rs); reflexivity. }
    rewrite Hstep, IH. cbn [snd emit store ids ticks trace pending].
    rewrite <- app_assoc. reflexivity.
Qed.

(** X10.  When the template of a bulk issuance is not in the store, the
    promise chain sends no request at all: it logs one error per
    certificate and then reports, without an alert, that all 0
    certificates were processed. *)
Theorem settleBulk_without_template (env : Env) (remote : Remote)
    (newCertificates : list Certificate.t) (recipients : list Recipient.t)
    (templateId : string) (w : World) :
  settleBulk env remote newCertificates recipients None templateId w =
  (Some tt,
   mkWorld (store w) (ids w) (ticks w)
           (trace w ++
            map (fun c => ErrorMissing (Certificate.id c)) newCertificates ++
            [LogAllProcessed 0])
           (pending w)).
Proof.
  unfold settleBulk. unfold bind.
  rewrite batchLoop_from by (unfold batchSize; lia).
  rewrite drop_0. unfold bind.
  rewrite processBatch_without_template.
  unfold ret at 1. cbv beta iota. unfold reportBulk. cbn [errorCount savedCount].
  rewrite bool_decide_eq_false_2 by lia.
  cbn. rewrite <- app_assoc. reflexivity.
Qed.

(** Membership in a list that is written out. *)
Ltac is_listed := apply list_elem_of_In; cbn; auto 10.
Ltac listed H :=
  apply list_elem_of_In in H; cbn in H;
  repeat (destruct H as [ H | H ]; try discriminate H); try contradiction.

(** X11.  In the promise chain of [generateCertificate] the user is
    alerted exactly when the insert is rejected; the PDF is rendered and
    uploaded only after the insert resolved; and the row's PDF URL is
    updated only with the URL that the upload resolved to.  A failure of
    the rendering, the upload or the update is logged and never alerted. *)
Theorem settleOne_alerts_on_insert_only (remote : Remote) (id : string)
    (db : DatabaseCertificate) (w : World) :
  let w' := snd (settleOne remote id db w) in
  let saved := insertCertificate remote (trace w) db in
  let h := trace w ++ [InsertCertificate db; LogSaved id; LogGenerating id] in
  exists added,
    trace w' = trace w ++ added /\
    (AlertNotSaved ∈ added <-> saved = false) /\
    (GenerateAndUpload id ∈ added <-> saved = true) /\
    (forall url, UpdatePDFUrl id url ∈ added ->
       saved = true /\ generateAndUploadCertificatePDF remote h id = Some url).
Proof.
  cbn zeta. unfold settleOne, bind, request, emit, ret.
  cbn [fst snd trace store ids ticks pending].
  destruct (insertCertificate remote (trace w) db);
    cbn [fst snd trace store ids ticks pending].
  - rewrite <- !app_assoc. cbn [app].
    destruct (generateAndUploadCertificatePDF remote _ id) as [ url | ] eqn:Epdf;
      [ destruct (updateCertificatePDFUrl remote _ id url) | ];
      cbn [fst snd trace store ids ticks pending];
      rewrite <- !app_assoc; cbn [app];
      (eexists; split; [ reflexivity | ]);
      (split; [ | split ]).
    all: try (split; [ intros H; listed H | intros H; discriminate H ]).
    all: try (split; [ reflexivity | intros _; is_listed ]).
    all: intros url' H; split; [ reflexivity | ]; listed H; congruence.
  - rewrite <- !app_assoc; cbn [app].
    eexists; split; [ reflexivity | ]. split; [ | split ].
    + split; [ reflexivity | intros _; is_listed ].
    + split; [ intros H; listed H | intros H; discriminate H ].
    + intros url' H. listed H.
Qed.

(** *** Membership of collections *)

Lemma collections_map_ext (f g : CertificateCollection.t -> CertificateCollection.t)
    (state : Store) :
  (forall c, f c = g c) ->
  mkStore (templates state) (recipients state) (certificates state)
          (map f (collections state)) (currentTemplateId state) =
  mkStore (templates state) (recipients state) (certificates state)
          (map g (collections state)) (currentTemplateId state).
Proof. intros H. f_equal. apply map_ext. exact H. Qed.

(** X12.  Removing from a collection what was just added to it undoes
    the addition and more: [removeCertificatesFromCollection] after
    [addCertificatesToCollection], with the same arguments, gives the
    store that the removal alone gives. *)
Theorem remove_after_add (collectionId : string) (certificateIds : list string)
    (state : Store) :
  removeCertificatesFromCollection collectionId certificateIds
    (addCertificatesToCollection collectionId certificateIds state)
  = removeCertificatesFromCollection collectionId certificateIds state.
Proof.
  unfold removeCertificatesFromCollection, addCertificatesToCollection.
  cbn [templates recipients certificates collections currentTemplateId].
  rewrite map_map. apply collections_map_ext. intros c.
  destruct (bool_decide (CertificateCollection.id c = collectionId)) eqn:Hid;
    cbn [CertificateCollection.withCertificates CertificateCollection.id
         CertificateCollection.certificates]; rewrite Hid; [ | reflexivity ].
  unfold CertificateCollection.withCertificates.
  cbn [CertificateCollection.id CertificateCollection.name
       CertificateCollection.description CertificateCollection.templateId
       CertificateCollection.certificates CertificateCollection.createdAt].
  f_equal. rewrite List.filter_app.
  rewrite (filter_none _ (List.filter _ (List.filter _ (certificates state)))).
  - apply app_nil_r.
  - intros cert Hcert.
    apply list_elem_of_In, filter_In in Hcert as [Hcert _].
    apply filter_In in Hcert as [_ Hreq]. rewrite Hreq. reflexivity.
Qed.

(** X13.  After [removeCertificatesFromCollection] no member of the
    collection has one of the given ids, every other member is still
    there, in order, and collections with another id are untouched;
    removing a second time changes nothing. *)
Theorem remove_is_a_difference (collectionId : string) (certificateIds : list string)
    (state : Store) :
  let state' := removeCertificatesFromCollection collectionId certificateIds state in
  (forall i c, collections state !! i = Some c ->
     exists c',
       collections state' !! i = Some c' /\
       CertificateCollection.id c' = CertificateCollection.id c /\
       (CertificateCollection.id c <> collectionId -> c' = c) /\
       (CertificateCollection.id c = collectionId ->
        forall cert,
          cert ∈ CertificateCollection.certificates c' <->
          cert ∈ CertificateCollection.certificates c /\
          Certificate.id cert ∉ certificateIds)) /\
  removeCertificatesFromCollection collectionId certificateIds state' = state'.
Proof.
  cbn zeta. split.
  - intros i c Hi. eexists. split.
    + unfold removeCertificatesFromCollection. cbn [collections].
      apply (map_by_id_lookup CertificateCollection.id collectionId _ _ i c Hi).
    + destruct (decide (CertificateCollection.id c = collectionId)) as [ Hc | Hc ].
      * rewrite (bool_decide_eq_true_2 _ Hc).
        split; [ reflexivity | split; [ intros H; contradiction | ] ].
        intros _ cert. cbn [CertificateCollection.withCertificates
                            CertificateCollection.certificates].
        rewrite list_elem_of_In, filter_In, <- list_elem_of_In.
        unfold includes, some. rewrite negb_true_iff.
        split; intros [Hin Hno]; (split; [ exact Hin | ]).
        -- intros Hid. apply list_elem_of_In in Hid.
           assert (existsb (fun x => bool_decide (x = Certificate.id cert))
                           certificateIds = true) as Ht; [ | congruence ].
           apply existsb_exists. exists (Certificate.id cert).
           split; [ exact Hid | apply bool_decide_eq_true_2; reflexivity ].
        -- destruct (existsb _ certificateIds) eqn:E; [ | reflexivity ].
           apply existsb_exists in E as (x & Hx & Heq).
           apply bool_decide_eq_true in Heq. subst x.
           destruct Hno. apply list_elem_of_In. exact Hx.
      * rewrite (bool_decide_eq_false_2 _ Hc).
        split; [ reflexivity | split; [ reflexivity | intros H; contradiction ] ].
  - unfold removeCertificatesFromCollection.
    cbn [templates recipients certificates collections currentTemplateId].
    rewrite map_map. apply collections_map_ext. intros c.
    destruct (bool_decide (CertificateCollection.id c = collectionId)) eqn:Hid;
      cbn [CertificateCollection.withCertificates CertificateCollection.id
           CertificateCollection.certificates]; rewrite Hid; [ | reflexivity ].
    unfold CertificateCollection.withCertificates.
    cbn [CertificateCollection.id CertificateCollection.name
         CertificateCollection.description CertificateCollection.templateId
         CertificateCollection.certificates CertificateCollection.createdAt].
    f_equal. induction (CertificateCollection.certificates c) as [ | x l IH ];
      [ reflexivity | ].
    cbn [List.filter]. destruct (negb (includes certificateIds (Certificate.id x))) eqn:E.
    + cbn [List.filter]. rewrite E, IH. reflexivity.
    + exact IH.
Qed.

Lemma NoDup_map_filter {A B} (f : A -> B) (p : A -> bool) l :
  NoDup (map f l) -> NoDup (map f (List.filter p l)).
Proof.
  induction l as [ | x l IH ]; intros Hnd; [ exact Hnd | ].
  cbn [map] in Hnd. apply NoDup_cons in Hnd as [Hx Hnd].
  cbn [List.filter]. destruct (p x); [ | apply IH; exact Hnd ].
  cbn [map]. apply NoDup_cons. split; [ | apply IH; exact Hnd ].
  intros Hin. apply Hx.
  apply list_elem_of_In, in_map_iff in Hin as (y & Hy & Hin).
  apply filter_In in Hin as [Hin _].
  apply list_elem_of_In, in_map_iff. exists y. split; assumption.
Qed.

(** X14.  [addCertificatesToCollection] keeps the members of a
    collection distinct by id: if the store repeats no certificate id
    and a collection repeats no member id, the collection repeats no
    member id after the addition. *)
Theorem add_keeps_members_distinct (collectionId : string)
    (certificateIds : list string) (state : Store) :
  NoDup (map Certificate.id (certificates state)) ->
  forall i c c',
    collections state !! i = Some c ->
    NoDup (member_ids c) ->
    collections (addCertificatesToCollection collectionId certificateIds state) !! i
    = Some c' ->
    NoDup (member_ids c').
Proof.
  intros Hstore i c c' Hi Hc Hi'.
  unfold addCertificatesToCollection in Hi'. cbn [collections] in Hi'.
  rewrite (map_by_id_lookup CertificateCollection.id collectionId _ _ i c Hi) in Hi'.
  injection Hi' as <-.
  destruct (bool_decide (CertificateCollection.id c = collectionId)); [ | exact Hc ].
  unfold member_ids in *.
  cbn [CertificateCollection.withCertificates CertificateCollection.certificates].
  rewrite map_app. apply NoDup_app. split; [ exact Hc | split ].
  - intros id Hold Hnew.
    apply list_elem_of_In, in_map_iff in Hnew as (cert & Hid & Hcert).
    apply filter_In in Hcert as [_ Hfresh]. apply negb_true_iff in Hfresh.
    apply list_elem_of_In, in_map_iff in Hold as (existing & Hex & Hin).
    rewrite (some_true _ _ existing) in Hfresh; [ discriminate | | ].
    + apply list_elem_of_In. exact Hin.
    + apply bool_decide_eq_true_2. congruence.
  - apply NoDup_map_filter, NoDup_map_filter. exact Hstore.
Qed.

Lemma add_keeps_members_distinct_witness :
  NoDup (member_ids
           (CertificateCollection.mk "k1" "Batch" None "t1"
              [example_certificate "c1" "r1"; example_certificate "c3" "r1"]
              "2025-01-02T00:00:00.000Z")) /\
  length (collections store_with_collection) = 1%nat.
Proof.
  split; [ | reflexivity ].
  apply (add_keeps_members_distinct "k1" ["c1"; "c3"] store_with_collection
           ltac:(apply (bool_decide_unpack _); vm_compute; exact I)
           0%nat
           (CertificateCollection.mk "k1" "Batch" None "t1"
              [example_certificate "c1" "r1"] "2025-01-02T00:00:00.000Z")).
  - reflexivity.
  - apply (bool_decide_unpack _). vm_compute. exact I.
  - reflexivity.
Defined.

(** X15.  Ids that name no certificate of the store are ignored without
    a trace: if none of the given ids is the id of a certificate of the
    store, [addCertificatesToCollection] leaves the store as it was.  In
    particular a certificate that was deleted from the store can no
    longer be added to a collection. *)
Theorem add_ignores_unknown_ids (collectionId : string) (state : Store) :
  (forall certificateIds,
     (forall cert, cert ∈ certificates state ->
                   Certificate.id cert ∉ certificateIds) ->
     addCertificatesToCollection collectionId certificateIds state = state) /\
  (forall id,
     addCertificatesToCollection collectionId [id] (deleteCertificate id state)
     = deleteCertificate id state).
Proof.
  assert (Hnone : forall ids s,
            (forall cert, cert ∈ certificates s -> Certificate.id cert ∉ ids) ->
            addCertificatesToCollection collectionId ids s = s).
  { intros ids s Hs. destruct s as [ts rs cs ks cur].
    unfold addCertificatesToCollection.
    cbn [templates recipients certificates collections currentTemplateId] in *.
    f_equal. rewrite <- (map_id ks) at 2. apply map_ext. intros c.
    destruct (bool_decide _); [ | reflexivity ].
    rewrite (filter_none _ cs).
    - cbn. rewrite app_nil_r. destruct c; reflexivity.
    - intros cert Hcert. unfold includes, some.
      destruct (existsb _ ids) eqn:E; [ | reflexivity ].
      apply existsb_exists in E as (x & Hx & Heq).
      apply bool_decide_eq_true in Heq. subst x.
      destruct (Hs cert Hcert). apply list_elem_of_In. exact Hx. }
  split; [ intros ids Hunknown; apply Hnone; exact Hunknown | ].
  intros id. apply Hnone. intros cert Hcert.
  unfold deleteCertificate in Hcert. cbn [certificates] in Hcert.
  apply list_elem_of_filter in Hcert as [Hne _].
  intros Hin. apply list_elem_of_singleton in Hin. congruence.
Qed.

Lemma add_ignores_unknown_ids_witness :
  addCertificatesToCollection "k1" ["c7"; "c8"] store_with_collection
  = store_with_collection.
Proof.
  apply (proj1 (add_ignores_unknown_ids "k1" store_with_collection)).
  intros cert Hcert Hin.
  apply list_elem_of_In in Hcert. cbn in Hcert.
  apply list_elem_of_In in Hin. cbn in Hin.
  repeat (destruct Hcert as [ <- | Hcert ];
          [ cbn in Hin; repeat (destruct Hin as [ Hin | Hin ]; try discriminate Hin);
            contradiction | ]).
  contradiction.
Defined.


(** ** More of import and export *)

Section ParsedValues.
Local Open Scope char_scope.

Lemma parse_value_S f s :
  parse_value (S f) s =
  match skip_ws s with
  | [] => None
  | c :: r =>
      if Ascii.eqb c "n" then literal "ull" Null r
      else if Ascii.eqb c "t" then literal "rue" (Bool true) r
      else if Ascii.eqb c "f" then literal "alse" (Bool false) r
      else if Ascii.eqb c "034" then
        match parse_chars r with
        | Some (str, r') => Some (Str str, r')
        | None => None
        end
      else if Ascii.eqb c "[" then
        match skip_ws r with
        | "]" :: r' => Some (Arr [], r')
        | _ =>
            match parse_elements f r with
            | Some (l, r') => Some (Arr l, r')
            | None => None
            end
        end
      else if Ascii.eqb c "{" then
        match skip_ws r with
        | "}" :: r' => Some (Obj [], r')
        | _ =>
            match parse_members f r with
            | Some (l, r') => Some (Obj (object_of l), r')
            | None => None
            end
        end
      else if Ascii.eqb c "-" then
        match parse_digits r with
        | Some (n, r') => Some (Num (Int (- Z.of_N n)), r')
        | None => None
        end
      else
        match parse_digits (c :: r) with
        | Some (n, r') => Some (Num (Int (Z.of_N n)), r')
        | None => None
        end
  end.
Proof. reflexivity. Qed.

(** Case analysis along the branches of a parser that has succeeded. *)
Ltac branches H :=
  repeat (match type of H with
          | match ?x with _ => _ end = Some _ => destruct x eqn:?
          | (if ?b then _ else _) = Some _ => destruct b eqn:?
          end; try discriminate H).

Lemma set_key_keeps (P : value -> Prop) k v l :
  NoDup (map fst l) -> Forall (fun kv => P (snd kv)) l -> P v ->
  NoDup (map fst (set_key k v l)) /\ Forall (fun kv => P (snd kv)) (set_key k v l).
Proof.
  intros Hnd Hl Hv. induction l as [ | [k' v'] l IH ].
  - cbn. split; [ apply NoDup_singleton | repeat constructor; exact Hv ].
  - cbn [set_key]. cbn [map fst] in Hnd. apply NoDup_cons in Hnd as [Hk' Hnd].
    inversion Hl as [ | ? ? Hv' Hl' ]; subst.
    destruct (decide (k' = k)) as [ -> | Hne ].
    + rewrite bool_decide_eq_true_2 by reflexivity. split.
      * cbn [map fst]. apply NoDup_cons. split; assumption.
      * constructor; assumption.
    + rewrite bool_decide_eq_false_2 by exact Hne.
      destruct (IH Hnd Hl') as [IHnd IHl]. split.
      * cbn [map fst]. apply NoDup_cons. split; [ | exact IHnd ].
        intros Hin. apply Hk'.
        clear -Hin Hne. induction l as [ | [k2 v2] l IHl ].
        -- cbn in Hin. apply list_elem_of_singleton in Hin. congruence.
        -- cbn [set_key] in Hin. destruct (bool_decide (k2 = k)) eqn:E.
           ++ apply bool_decide_eq_true in E. subst k2.
              cbn [map fst] in *. apply elem_of_cons in Hin as [ Hin | Hin ];
                [ congruence | right; exact Hin ].
           ++ cbn [map fst] in *. apply elem_of_cons in Hin as [ Hin | Hin ];
                [ subst; left | right; apply IHl; exact Hin ].
      * constructor; assumption.
Qed.

Lemma object_of_keeps (P : value -> Prop) members :
  Forall (fun kv => P (snd kv)) members ->
  NoDup (map fst (object_of members)) /\
  Forall (fun kv => P (snd kv)) (object_of members).
Proof.
  unfold object_of. intros Hm.
  assert (Hgen : forall acc,
            NoDup (map fst acc) -> Forall (fun kv => P (snd kv)) acc ->
            NoDup (map fst (fold_left (fun o kv => set_key (fst kv) (snd kv) o)
                                      members acc)) /\
            Forall (fun kv => P (snd kv))
                   (fold_left (fun o kv => set_key (fst kv) (snd kv) o) members acc)).
  { induction Hm as [ | [k v] members Hv Hm IH ]; intros acc Hnd Hacc.
    - cbn. split; assumption.
    - cbn [fold_left fst snd].
      destruct (set_key_keeps P k v acc Hnd Hacc Hv) as [Hnd' Hacc'].
      apply IH; assumption. }
  apply Hgen; constructor.
Qed.

(** What the parser returns is well formed: its numbers are finite and
    its objects repeat no key. *)
Lemma parsers_well_formed fuel :
  (forall s v r, parse_value fuel s = Some (v, r) -> well_formed v) /\
  (forall s l r, parse_elements fuel s = Some (l, r) -> Forall well_formed l) /\
  (forall s l r, parse_members fuel s = Some (l, r) ->
                 Forall (fun kv => well_formed (snd kv)) l).
Proof.
  induction fuel as [ | fuel (IHv & IHe & IHm) ];
    [ repeat split; intros; discriminate | ].
  split; [ | split ].
  - intros s v r H. rewrite parse_value_S in H. unfold literal in H.
    branches H; injection H as <- <-.
    all: first
      [ solve [ constructor ]
      | solve [ constructor; constructor ]
      | solve [ constructor; eapply IHe; eassumption ]
      | match goal with
        | E : parse_members _ _ = Some (?l, _) |- _ =>
            destruct (object_of_keeps well_formed l (IHm _ _ _ E));
            constructor; assumption
        end ].
  - intros s l r H. rewrite parse_elements_S in H.
    branches H; injection H as <- <-.
    all: constructor; [ eapply IHv; eassumption | ].
    all: try constructor.
    all: eapply IHe; eassumption.
  - intros s l r H. rewrite parse_members_S in H.
    branches H; injection H as <- <-.
    all: constructor; [ cbn; eapply IHv; eassumption | ].
    all: try constructor.
    all: eapply IHm; eassumption.
Qed.

End ParsedValues.

Lemma JSON_parse_well_formed text v : JSON_parse text = Some v -> well_formed v.
Proof.
  unfold JSON_parse. intros H.
  destruct (parse_value _ _) as [ [v' r] | ] eqn:E; [ | discriminate H ].
  destruct (skip_ws r); [ | discriminate H ]. injection H as <-.
  eapply (proj1 (parsers_well_formed _)). exact E.
Qed.

Lemma member_well_formed k data v :
  well_formed data -> member k data = Some (Some v) -> well_formed v.
Proof.
  intros Hwf. destruct data as [ | b | n | s | l | l ]; try discriminate.
  cbn [member]. intros [= H]. inversion Hwf as [ | | | | | l' _ Hl ]; subst.
  induction Hl as [ | [k' v'] l Hv Hl IH ]; [ discriminate H | ].
  cbn [lookup_key] in H. destruct (bool_decide (k' = k)).
  - injection H as <-. exact Hv.
  - apply IH; [ | exact H ]. inversion Hwf as [ | | | | | l' Hnd Hl' ]; subst.
    inversion Hl'; subst. cbn [map fst] in Hnd. apply NoDup_cons in Hnd as [_ Hnd].
    constructor; assumption.
Qed.

Lemma or_else_well_formed k data m :
  well_formed data -> member k data = Some m -> well_formed (or_else m (Arr [])).
Proof.
  intros Hwf Hm. destruct m as [ v | ]; cbn [or_else];
    [ | constructor; constructor ].
  destruct (truthy v); [ | constructor; constructor ].
  eapply member_well_formed; eassumption.
Qed.

Lemma or_else_truthy m : truthy (or_else m (Arr [])) = true.
Proof.
  destruct m as [ v | ]; cbn [or_else]; [ | reflexivity ].
  destruct (truthy v) eqn:E; [ exact E | reflexivity ].
Qed.

Lemma first_or_else m : first (Some (or_else m (Arr []))) = first m.
Proof.
  destruct m as [ v | ]; cbn [or_else]; [ | reflexivity ].
  destruct (truthy v) eqn:E; [ reflexivity | ].
  destruct v as [ | [] | [ z | | neg ] | s | l | l ]; try discriminate E;
    try reflexivity.
  destruct s; [ reflexivity | discriminate E ].
Qed.

(** X16.  A successful import overwrites everything: when the text
    parses to a value other than null, the state after [importData] does
    not depend on the state before; and importing the same text a second
    time changes nothing, whatever the text. *)
Theorem import_overwrites (text : string) (state1 state2 : RawStore) :
  (forall data, JSON_parse text = Some data -> data <> Null ->
     importData text state1 = importData text state2) /\
  importData text (importData text state1) = importData text state1.
Proof.
  unfold importData. split.
  - intros data -> Hdata.
    destruct data as [ | b | n | s | l | l ]; [ congruence | reflexivity .. ].
  - destruct (JSON_parse text) as [ data | ]; [ | reflexivity ].
    destruct data as [ | b | n | s | l | l ]; reflexivity.
Qed.




(** ** Adding and deleting entries *)

Lemma filter_by_id_all {A} (ident : A -> string) (id : string) (l : list A) :
  id ∉ map ident l -> filter (fun x => ident x <> id) l = l.
Proof.
  induction l as [ | x l IH ]; intros Hid; [ reflexivity | ].
  cbn [map] in Hid. apply not_elem_of_cons in Hid as [Hne Hid].
  rewrite filter_cons_True by congruence. rewrite IH by exact Hid. reflexivity.
Qed.

Lemma filter_by_id_last {A} (ident : A -> string) (id : string) (l : list A) x :
  id ∉ map ident l -> ident x = id ->
  filter (fun x => ident x <> id) (l ++ [x]) = l.
Proof.
  intros Hid Hx. rewrite filter_app, (filter_by_id_all _ _ _ Hid).
  rewrite filter_cons_False by (intros H; apply H; exact Hx).
  rewrite filter_nil. apply app_nil_r.
Qed.

Lemma filter_by_id_twice {A} (ident : A -> string) (id : string) (l : list A) :
  filter (fun x => ident x <> id) (filter (fun x => ident x <> id) l)
  = filter (fun x => ident x <> id) l.
Proof.
  induction l as [ | x l IH ]; [ reflexivity | ].
  destruct (decide (ident x = id)) as [ Hx | Hx ].
  - rewrite (filter_cons_False _ x l) by (intros H; apply H; exact Hx). exact IH.
  - rewrite (filter_cons_True _ x l) by exact Hx.
    rewrite filter_cons_True by exact Hx. rewrite IH. reflexivity.
Qed.

(** X18.  Deleting what was just added restores the store: when the
    identifier that [nanoid] hands out is not in use, [deleteTemplate],
    [deleteRecipient] and [deleteCollection] with the identifier returned
    by [addTemplate], [addRecipient] and [createCollection] give back the
    store as it was before the addition. *)
Theorem add_then_delete (env : Env) (w : World) :
  let id := nanoid env (ids w) in
  (forall template,
     id ∉ map Template.id (templates (store w)) ->
     currentTemplateId (store w) <> Some id ->
     let result := addTemplate env template w in
     fst result = id /\ deleteTemplate (fst result) (store (snd result)) = store w) /\
  (forall recipient,
     id ∉ map Recipient.id (recipients (store w)) ->
     id ∉ map Certificate.recipientId (certificates (store w)) ->
     let result := addRecipient env recipient w in
     fst result = id /\ deleteRecipient (fst result) (store (snd result)) = store w) /\
  (forall name description templateId,
     id ∉ map CertificateCollection.id (collections (store w)) ->
     let result := createCollection env name description templateId w in
     fst result = id /\ deleteCollection (fst result) (store (snd result)) = store w).
Proof.
  cbn zeta. destruct w as [ [ts rs cs ks cur] n k t p ].
  cbn [store ids templates recipients certificates collections currentTemplateId].
  split; [ | split ].
  - intros template Hts Hcur. split; [ reflexivity | ].
    unfold addTemplate, deleteTemplate, bind, fresh, set, ret.
    cbn [fst snd store ids templates recipients certificates collections
         currentTemplateId].
    rewrite filter_by_id_last by (exact Hts || reflexivity).
    rewrite bool_decide_eq_false_2 by exact Hcur. reflexivity.
  - intros recipient Hrs Hcs. split; [ reflexivity | ].
    unfold addRecipient, deleteRecipient, bind, fresh, set, ret.
    cbn [fst snd store ids templates recipients certificates collections
         currentTemplateId].
    rewrite filter_by_id_last by (exact Hrs || reflexivity).
    rewrite filter_by_id_all by exact Hcs. reflexivity.
  - intros name description templateId Hks. split; [ reflexivity | ].
    unfold createCollection, deleteCollection, bind, fresh, now, set, ret.
    cbn [fst snd store ids ticks templates recipients certificates collections
         currentTemplateId].
    rewrite filter_by_id_last by (exact Hks || reflexivity). reflexivity.
Qed.

Lemma add_then_delete_witness :
  deleteTemplate "aid" (store (snd (addTemplate example_env example_payload
                                      example_world)))
  = store example_world /\
  deleteCollection "aid"
    (store (snd (createCollection example_env "Batch" None (Some "t1")
                                  example_world)))
  = store example_world.
Proof.
  destruct (add_then_delete example_env example_world) as (Ht & _ & Hk).
  split.
  - destruct (Ht example_payload) as [_ H]; [ | | exact H ].
    + apply (bool_decide_unpack _). vm_compute. exact I.
    + discriminate.
  - destruct (Hk "Batch" None (Some "t1")) as [_ H]; [ | exact H ].
    apply (bool_decide_unpack _). vm_compute. exact I.
Defined.

(** X19.  Every delete action is idempotent: deleting the same id a
    second time changes nothing.  For [deleteTemplate] this includes the
    current template, which the first call has moved off the deleted id. *)
Theorem delete_twice (id : string) (state : Store) :
  deleteTemplate id (deleteTemplate id state) = deleteTemplate id state /\
  deleteRecipient id (deleteRecipient id state) = deleteRecipient id state /\
  deleteCertificate id (deleteCertificate id state) = deleteCertificate id state /\
  deleteCollection id (deleteCollection id state) = deleteCollection id state.
Proof.
  destruct state as [ts rs cs ks cur].
  unfold deleteTemplate, deleteRecipient, deleteCertificate, deleteCollection.
  cbn [templates recipients certificates collections currentTemplateId].
  split; [ | split; [ | split ] ].
  - rewrite filter_by_id_twice. f_equal.
    destruct (bool_decide (cur = Some id)) eqn:Hcur.
    + rewrite bool_decide_eq_false_2; [ reflexivity | ].
      destruct (List.find _ ts) as [ t | ] eqn:Hfind; [ | discriminate ].
      apply find_some in Hfind as [_ Ht]. apply negb_true_iff in Ht.
      apply bool_decide_eq_false in Ht. cbn. destruct (decide _); congruence.
    + rewrite Hcur. reflexivity.
  - rewrite filter_by_id_twice.
    rewrite (filter_by_id_twice Certificate.recipientId). reflexivity.
  - rewrite filter_by_id_twice. reflexivity.
  - rewrite filter_by_id_twice. reflexivity.
Qed.

(** X20.  The actions that add a template or choose the current one
    keep the current template among the templates of the store:
    [addTemplate] preserves this, [setCurrentTemplate] establishes it
    when given the id of a template of the store, and [clearAllData]
    establishes it by leaving no current template. *)
Theorem current_template_valid_after (env : Env) (w : World) :
  (forall template, current_valid (store w) ->
                    current_valid (store (snd (addTemplate env template w)))) /\
  (forall id, id ∈ map Template.id (templates (store w)) ->
              current_valid (setCurrentTemplate id (store w))) /\
  current_valid (clearAllData (store w)).
Proof.
  split; [ | split ].
  - intros template Hvalid id Hid.
    unfold addTemplate, bind, fresh, set, ret in *.
    cbn [fst snd store templates currentTemplateId] in *.
    rewrite map_app. apply elem_of_app. left. apply Hvalid. exact Hid.
  - intros id Hid id' [= <-]. exact Hid.
  - intros id Hid. discriminate Hid.
Qed.


(** ** What an upload puts on the wire *)

Lemma requests_app m t1 t2 : requests m (t1 ++ t2) = (requests m t1 + requests m t2)%nat.
Proof. unfold requests. rewrite List.filter_app, length_app. reflexivity. Qed.

Lemma targets_app t1 t2 : targets (t1 ++ t2) = targets t1 ++ targets t2.
Proof. apply omap_app. Qed.

Lemma slept_app t1 t2 : slept (t1 ++ t2) = slept t1 + slept t2.
Proof.
  induction t1 as [ | e t1 IH ]; [ reflexivity | ].
  cbn [app]. unfold slept in *. cbn [foldr]. destruct e; rewrite IH; lia.
Qed.

(** One attempt sends one create, at most one update, both to the URL of
    the object, and does not sleep; when it succeeds, the last thing it
    does is to log the public URL. *)
Lemma attemptUpload_traffic net supabaseUrl fileName h :
  exists t,
    snd (attemptUpload net supabaseUrl fileName fileName h) = h ++ t /\
    Forall (eq (objectUrl supabaseUrl fileName)) (targets t) /\
    requests POST t = 1%nat /\ (requests PUT t <= 1)%nat /\ slept t = 0 /\
    forall u, fst (attemptUpload net supabaseUrl fileName fileName h) = inr u ->
              last t = Some (LogUploaded u).
Proof.
  unfold attemptUpload, bind, fetch, note, ret.
  destruct (net h POST _) as [ | r ].
  { exists [Fetch POST (objectUrl supabaseUrl fileName)].
    repeat split; try (cbn; lia); [ repeat constructor | discriminate ]. }
  destruct (ok r).
  { eexists [Fetch POST _; LogUploaded _]. cbn [fst snd].
    rewrite <- app_assoc.
    repeat split; try (cbn; lia); [ repeat constructor | ].
    intros u [= <-]. reflexivity. }
  destruct (text r) as [ e | ].
  2:{ exists [Fetch POST (objectUrl supabaseUrl fileName)].
      repeat split; try (cbn; lia); [ repeat constructor | discriminate ]. }
  destruct (bool_decide (status r = 409)).
  2:{ exists [Fetch POST (objectUrl supabaseUrl fileName)].
      repeat split; try (cbn; lia); [ repeat constructor | discriminate ]. }
  cbn [fst snd].
  destruct (net _ PUT _) as [ | r' ].
  { eexists [Fetch POST _; LogExists _; Fetch PUT _]. cbn [fst snd].
    rewrite <- !app_assoc.
    repeat split; try (cbn; lia); [ repeat constructor | discriminate ]. }
  destruct (ok r').
  { eexists [Fetch POST _; LogExists _; Fetch PUT _; LogUploaded _]. cbn [fst snd].
    rewrite <- !app_assoc.
    repeat split; try (cbn; lia); [ repeat constructor | ].
    intros u [= <-]. reflexivity. }
  eexists [Fetch POST _; LogExists _; Fetch PUT _].
  destruct (text r'); cbn [fst snd]; rewrite <- !app_assoc;
    (repeat split; try (cbn; lia); [ repeat constructor | discriminate ]).
Qed.

(** One turn of the loop. *)
Lemma retryLoop_S net supabaseUrl fileName fuel a h :
  retryLoop (S fuel) net supabaseUrl fileName fileName a h =
  if bool_decide (a <= MAX_RETRIES)%nat then
    match attemptUpload net supabaseUrl fileName fileName h with
    | (inr u, h1) => (Returned u, h1)
    | (inl error, h1) =>
        if bool_decide (a = MAX_RETRIES)
        then (ThrewAfterRetries MAX_RETRIES error, h1 ++ [ErrorAttempt a])
        else retryLoop fuel net supabaseUrl fileName fileName (S a)
               ((h1 ++ [ErrorAttempt a]) ++ [Sleep (RETRY_DELAY * Z.of_nat a)])
    end
  else (ThrewUnexpected, h).
Proof.
  cbn [retryLoop]. destruct (bool_decide (a <= MAX_RETRIES)%nat); [ | reflexivity ].
  unfold bind at 1.
  destruct (attemptUpload net supabaseUrl fileName fileName h) as [[e | u] h1];
    [ | reflexivity ].
  unfold bind at 1. unfold note at 1. cbv beta iota.
  destruct (bool_decide (a = MAX_RETRIES)); reflexivity.
Qed.

(** The loop from attempt [a] on: [k] creates, with the sleeps between
    them growing by a second each. *)
Lemma retryLoop_traffic net supabaseUrl fileName fuel a h :
  (1 <= a <= MAX_RETRIES)%nat -> (MAX_RETRIES < a + fuel)%nat ->
  exists t,
    snd (retryLoop fuel net supabaseUrl fileName fileName a h) = h ++ t /\
    Forall (eq (objectUrl supabaseUrl fileName)) (targets t) /\
    (1 <= requests POST t <= MAX_RETRIES + 1 - a)%nat /\
    (requests PUT t <= requests POST t)%nat /\
    slept t = 500 * (Z.of_nat (requests POST t) - 1) *
              (2 * Z.of_nat a + Z.of_nat (requests POST t) - 2) /\
    match fst (retryLoop fuel net supabaseUrl fileName fileName a h) with
    | Returned u => last t = Some (LogUploaded u)
    | ThrewAfterRetries _ _ => requests POST t = (MAX_RETRIES + 1 - a)%nat
    | ThrewUnexpected | OutOfFuel => False
    end.
Proof.
  revert a h. induction fuel as [ | fuel IH ]; intros a h Ha Hfuel; [ lia | ].
  rewrite retryLoop_S. rewrite bool_decide_eq_true_2 by lia.
  destruct (attemptUpload_traffic net supabaseUrl fileName h)
    as (t1 & Hh1 & Hurl1 & Hpost1 & Hput1 & Hsleep1 & Hlast1).
  destruct (attemptUpload net supabaseUrl fileName fileName h) as [[e | u] h1];
    cbn [snd] in Hh1; subst h1.
  - destruct (decide (a = MAX_RETRIES)) as [ Heq | Hne ].
    + rewrite bool_decide_eq_true_2 by exact Heq. cbn [fst snd].
      exists (t1 ++ [ErrorAttempt a]). rewrite app_assoc.
      rewrite !requests_app, targets_app, slept_app, Hpost1, Hsleep1.
      cbn [targets omap requests List.filter length slept foldr].
      rewrite app_nil_r.
      split; [ reflexivity | split; [ exact Hurl1 | ] ].
      cbn [Nat.add]. change (Z.of_nat 1) with 1.
      split; [ lia | split; [ lia | split; [ ring | lia ] ] ].
    + rewrite bool_decide_eq_false_2 by exact Hne.
      destruct (IH (S a) ((h ++ t1) ++ [ErrorAttempt a]
                          ++ [Sleep (RETRY_DELAY * Z.of_nat a)]))
        as (t2 & Hh2 & Hurl2 & Hpost2 & Hput2 & Hsleep2 & Hres2); [ lia | lia | ].
      rewrite (app_assoc (h ++ t1)) in Hh2, Hres2.
      exists (t1 ++ [ErrorAttempt a; Sleep (RETRY_DELAY * Z.of_nat a)] ++ t2).
      rewrite Hh2, !requests_app, !targets_app, !slept_app, Hpost1, Hsleep1, Hsleep2.
      cbn [targets omap requests List.filter length slept foldr app].
      split; [ rewrite <- !app_assoc; reflexivity | ].
      split; [ apply Forall_app; split; assumption | ].
      split; [ lia | split; [ lia | split ] ].
      * unfold RETRY_DELAY. cbn [Nat.add]. rewrite !Nat2Z.inj_succ.
        unfold Z.succ. ring.
      * destruct (fst (retryLoop fuel net supabaseUrl fileName fileName (S a) _));
          [ | lia | contradiction | contradiction ].
        change (ErrorAttempt a :: Sleep (RETRY_DELAY * Z.of_nat a) :: t2)
          with ([ErrorAttempt a; Sleep (RETRY_DELAY * Z.of_nat a)] ++ t2).
        rewrite app_assoc, last_app, Hres2. reflexivity.
  - cbn [fst snd]. exists t1. rewrite Hpost1, Hsleep1.
    change (Z.of_nat 1) with 1.
    split; [ reflexivity | split; [ exact Hurl1 | ] ].
    split; [ lia | split; [ lia | split; [ ring | ] ] ].
    apply Hlast1. reflexivity.
Qed.

(** X21.  What one call of [uploadCertificatePDF] puts on the wire: every
    request goes to the one URL of the object; there are one to three
    creates and never more updates than creates; after [n] creates the
    function has slept 0, 1000 or 3000 ms for [n] = 1, 2, 3; it throws
    only after three creates, and when it returns, the last thing it did
    was to log the URL it returns, which is the public URL that
    [getCertificatePDFUrl] gives for the code. *)
Theorem uploadCertificatePDF_traffic (net : Network)
    (supabaseUrl certificateCode : string) (h : list NetEvent) :
  let run := uploadCertificatePDF net supabaseUrl certificateCode h in
  exists t,
    snd run = h ++ t /\
    Forall (eq (objectUrl supabaseUrl (certificateCode +:+ ".pdf"))) (targets t) /\
    (1 <= requests POST t <= 3)%nat /\
    (requests PUT t <= requests POST t)%nat /\
    slept t = 500 * Z.of_nat (requests POST t) * (Z.of_nat (requests POST t) - 1) /\
    (forall n error, fst run = ThrewAfterRetries n error -> requests POST t = 3%nat) /\
    (forall u, fst run = Returned u ->
               u = getCertificatePDFUrl supabaseUrl certificateCode /\
               last t = Some (LogUploaded u)).
Proof.
  cbn zeta. unfold uploadCertificatePDF.
  destruct (retryLoop_traffic net supabaseUrl (certificateCode +:+ ".pdf")
              MAX_RETRIES 1 h) as (t & Hh & Hurl & Hpost & Hput & Hsleep & Hres);
    [ unfold MAX_RETRIES; lia | unfold MAX_RETRIES; lia | ].
  pose proof (retryLoop_result net supabaseUrl (certificateCode +:+ ".pdf")
                MAX_RETRIES 1 h) as Hurl'.
  exists t. unfold MAX_RETRIES in *.
  split; [ exact Hh | split; [ exact Hurl | split; [ lia | split; [ exact Hput | ] ] ] ].
  split; [ rewrite Hsleep; ring | split ].
  - intros n error Hrun. rewrite Hrun in Hres. exact Hres.
  - intros u Hrun. rewrite Hrun in Hres, Hurl'. split; [ | exact Hres ].
    apply Hurl'; lia.
Qed.


(** ** Deleting, probing and downloading a stored PDF *)

(** X22.  [deleteCertificatePDF] asks the service to delete the object
    that [uploadCertificatePDF] writes, and counts an object that is not
    there as deleted: it resolves exactly when the request is answered
    with a status from 200 to 299 or with 404.  When it throws an error
    of its own, the answer had another status and the error carries the
    body of the answer. *)
Theorem deleteCertificatePDF_settles (net : Storage)
    (supabaseUrl certificateCode : string) :
  let url := objectUrl supabaseUrl (certificateCode +:+ ".pdf") in
  (deleteCertificatePDF net supabaseUrl certificateCode = Deleted <->
   exists r, net DELETE url = Resolves r /\
             (200 <= status r <= 299 \/ status r = 404)) /\
  (forall errorText,
     deleteCertificatePDF net supabaseUrl certificateCode = DeleteFailed errorText <->
     exists r, net DELETE url = Resolves r /\ text r = Some errorText /\
               ~ 200 <= status r <= 299 /\ status r <> 404).
Proof.
  cbn zeta. unfold deleteCertificatePDF, ok.
  destruct (net DELETE _) as [ | r ].
  { split; [ | intros e ]; (split; [ discriminate | intros (r & Hr & _); discriminate Hr ]). }
  destruct (decide (200 <= status r <= 299)) as [ Hok | Hok ];
    [ rewrite (bool_decide_eq_true_2 _ Hok) | rewrite (bool_decide_eq_false_2 _ Hok) ];
    cbn [negb andb].
  { split; [ | intros e ]; split; try discriminate.
    - intros _. exists r. split; [ reflexivity | left; exact Hok ].
    - reflexivity.
    - intros (r' & [= <-] & _ & Hno & _). contradiction. }
  destruct (decide (status r = 404)) as [ H404 | H404 ];
    [ rewrite (bool_decide_eq_true_2 _ H404) | rewrite (bool_decide_eq_false_2 _ H404) ];
    cbn [negb].
  { split; [ | intros e ]; split; try discriminate.
    - intros _. exists r. split; [ reflexivity | right; exact H404 ].
    - reflexivity.
    - intros (r' & [= <-] & _ & _ & Hno). contradiction. }
  split; [ | intros e ]; split.
  - destruct (text r); discriminate.
  - intros (r' & [= <-] & [ H | H ]); contradiction.
  - destruct (text r) as [ e' | ] eqn:Etext; [ | discriminate ]. intros [= <-].
    exists r. split; [ reflexivity | split; [ exact Etext | split; assumption ] ].
  - intros (r' & [= <-] & -> & _). reflexivity.
Qed.

(** X23.  The URL that [uploadCertificatePDF] returns is the URL that
    [checkCertificatePDFExists] probes and that [downloadCertificatePDF]
    fetches.  The probe never throws: it answers whether that URL was
    answered with a status from 200 to 299, and [false] when the request
    fails; a download saves a file only when that URL was answered with
    such a status. *)
Theorem uploaded_url_is_probed_and_fetched (net : Network) (storage : Storage)
    (supabaseUrl certificateCode : string) (h : list NetEvent) (publicUrl : string) :
  fst (uploadCertificatePDF net supabaseUrl certificateCode h) = Returned publicUrl ->
  (checkCertificatePDFExists storage supabaseUrl certificateCode = true <->
   exists r, storage HEAD publicUrl = Resolves r /\ 200 <= status r <= 299) /\
  (forall recipientName fileName,
     downloadCertificatePDF storage supabaseUrl certificateCode recipientName
     = Saved fileName ->
     exists r, storage GET publicUrl = Resolves r /\ 200 <= status r <= 299).
Proof.
  intros Hup.
  pose proof (retryLoop_result net supabaseUrl (certificateCode +:+ ".pdf")
                MAX_RETRIES 1 h) as Hurl.
  unfold uploadCertificatePDF in Hup. rewrite Hup in Hurl.
  assert (publicUrl = getCertificatePDFUrl supabaseUrl certificateCode) as ->.
  { apply Hurl; unfold MAX_RETRIES; lia. }
  unfold checkCertificatePDFExists, downloadCertificatePDF, ok. split.
  - destruct (storage HEAD _) as [ | r ].
    + split; [ discriminate | intros (r & Hr & _); discriminate Hr ].
    + rewrite bool_decide_eq_true. split.
      * intros Hok. exists r. split; [ reflexivity | exact Hok ].
      * intros (r' & [= <-] & Hok). exact Hok.
  - intros recipientName fileName.
    destruct (storage GET _) as [ | r ]; [ discriminate | ].
    destruct (decide (200 <= status r <= 299)) as [ Hok | Hok ].
    + intros _. exists r. split; [ reflexivity | exact Hok ].
    + rewrite (bool_decide_eq_false_2 _ Hok). discriminate.
Qed.

Lemma uploaded_url_is_probed_and_fetched_witness :
  checkCertificatePDFExists serving_storage "https://p.supabase.co" "c1" = true <->
  exists r, serving_storage HEAD
              "https://p.supabase.co/storage/v1/object/public/certificates/c1.pdf"
            = Resolves r /\ 200 <= status r <= 299.
Proof.
  apply (uploaded_url_is_probed_and_fetched conflicting_network serving_storage
           "https://p.supabase.co" "c1" []).
  reflexivity.
Defined.

Lemma sanitize_code_unit c :
  let c' := lower (if alphanumeric c then c else "-"%char) in
  plain c' = true /\ lower (if alphanumeric c' then c' else "-"%char) = c'.
Proof.
  destruct c as [[] [] [] [] [] [] [] []]; vm_compute; split; reflexivity.
Qed.

Lemma sanitize_plain s :
  String.length (sanitize s) = String.length s /\
  Forall (fun c => plain c = true) (list_ascii_of_string (sanitize s)) /\
  sanitize (sanitize s) = sanitize s.
Proof.
  induction s as [ | c s (IHlen & IHall & IHidem) ].
  - repeat split. constructor.
  - destruct (sanitize_code_unit c) as [Hplain Hidem]. cbn zeta in *.
    cbn [sanitize String.length list_ascii_of_string].
    rewrite IHlen, IHidem, Hidem.
    repeat split. constructor; [ exact Hplain | exact IHall ].
Qed.

(** X24.  The name under which [downloadCertificatePDF] saves the file:
    with a recipient name that is not empty it is a stem followed by
    [-certificate.pdf], where the stem has the length of the recipient
    name, consists of digits, lower-case ASCII letters and dashes only,
    and is what the same replacement makes of itself; without a recipient
    name, or with the empty one, it is the certificate code followed by
    [.pdf]. *)
Theorem downloadCertificatePDF_file_name (net : Storage)
    (supabaseUrl certificateCode : string) (recipientName : option string)
    (fileName : string) :
  downloadCertificatePDF net supabaseUrl certificateCode recipientName
  = Saved fileName ->
  match recipientName with
  | Some name =>
      if decide (name = "") then fileName = certificateCode +:+ ".pdf"
      else exists stem,
             fileName = stem +:+ "-certificate.pdf" /\
             String.length stem = String.length name /\
             Forall (fun c => plain c = true) (list_ascii_of_string stem) /\
             sanitize stem = stem
  | None => fileName = certificateCode +:+ ".pdf"
  end.
Proof.
  unfold downloadCertificatePDF.
  destruct (net GET _) as [ | r ]; [ discriminate | ].
  destruct (ok r); [ | discriminate ]. cbn [negb].
  destruct (text r); [ | discriminate ]. intros [= <-].
  unfold downloadName. destruct recipientName as [ name | ]; [ | reflexivity ].
  destruct (decide (name = "")); [ reflexivity | ].
  exists (sanitize name). split; [ reflexivity | apply sanitize_plain ].
Qed.

Lemma downloadCertificatePDF_file_name_witness :
  exists stem,
    "ana-p--lopez-certificate.pdf" = stem +:+ "-certificate.pdf" /\
    String.length stem = String.length "Ana P. Lopez" /\
    Forall (fun c => plain c = true) (list_ascii_of_string stem) /\
    sanitize stem = stem.
Proof.
  apply (downloadCertificatePDF_file_name serving_storage "https://p.supabase.co"
           "c1" (Some "Ana P. Lopez") "ana-p--lopez-certificate.pdf").
  reflexivity.
Defined.
